(** * fdfs_client: connection pool and client facade

    A shallow embedding of [fdfs_client/connection.py] and
    [fdfs_client/client.py].  Python objects are modelled by references
    into a heap, exceptions by an error monad over the mutable world, and
    everything outside the process (the network, the random generator, the
    process id, the file system) by scripts and oracles held in that world. *)

From stdpp Require Import gmap strings list.
From Stdlib Require Import ZArith Lia Ascii.

(** ** Exceptions *)

(** An element of the [args] tuple of an exception: an error number or a
    message. *)
Inductive pyarg : Type :=
| ArgInt (z : Z)
| ArgStr (s : string).

(** The messages of [fdfs_client.exceptions.ConnectionError] raised in
    connection.py, kept symbolically. *)
Inductive conn_msg : Type :=
| TooManyConnections            (* "[-] Error: Too many connections." *)
| FailAfter3Times               (* "Fail to connect with Fdfs-server after trying 3 times" *)
| ErrorMessage (remote_addr : option string) (remote_port : option Z)
                                (* Connection._errormessage *)
| WhileReading (arg : pyarg)    (* "[-] Error: while reading from socket: (%s)" % e.args *)
| WhileWriting (arg : pyarg).   (* "[-] Error: while writting to socket: (%s)" % e.args *)

Inductive exn : Type :=
| ConnectionError (msg : conn_msg)
| DataError (msg : string)
| ResponseError (msg : string)
| SocketError                   (* socket.error, socket.timeout *)
| IndexError
| KeyError
| ValueError
| TypeError
| AttributeError
| NameError (name : string)
| UnboundLocalError (name : string).

Inductive result (A : Type) : Type :=
| Ok (a : A)
| Raise (e : exn).
Arguments Ok {A} a.
Arguments Raise {A} e.

(** ** The state-and-exception monad

    A computation reads and updates a mutable state of type [S] and either
    returns a value or raises an exception; the state reached when the
    exception is raised is kept, as in Python. *)

Definition ST (S A : Type) : Type := S → result A * S.

Definition ret {S A} (a : A) : ST S A := λ s, (Ok a, s).
Definition raise {S A} (e : exn) : ST S A := λ s, (Raise e, s).
Definition bind {S A B} (m : ST S A) (k : A → ST S B) : ST S B :=
  λ s, match m s with
       | (Ok a, s') => k a s'
       | (Raise e, s') => (Raise e, s')
       end.
(** [try: m except h]: a handler returning [None] does not match the
    exception, which then propagates. *)
Definition try_except {S A} (m : ST S A) (h : exn → option (ST S A)) : ST S A :=
  λ s, match m s with
       | (Ok a, s') => (Ok a, s')
       | (Raise e, s') =>
           match h e with
           | Some k => k s'
           | None => (Raise e, s')
           end
       end.
Definition gets {S A} (f : S → A) : ST S A := λ s, (Ok (f s), s).
Definition modify {S} (f : S → S) : ST S unit := λ s, (Ok tt, f s).

#[global] Instance ST_ret {S} : MRet (ST S) := λ A, @ret S A.
#[global] Instance ST_bind {S} : MBind (ST S) := λ A B k m, bind m k.

(** ** connection.py *)

Definition ref := nat.

(** A socket object returned by [socket.create_connection]. *)
Record socket := { peer_addr : string; peer_port : Z }.

(** One step of the environment met by [Connection._connect]: the index
    drawn by [random.choice] and whether [socket.create_connection]
    succeeds. *)
Record attempt := { pick : nat; reachable : bool }.

Inductive event : Type :=
| EvConnect (addr : string) (port : Z) (ok : bool)  (* socket.create_connection *)
| EvClose (ok : bool)                               (* sock.close() *)
| EvCreated (n : Z).                                (* a write to _conns_created *)

Module Connection.

Record t := {
  pid : Z;
  host_tuple : list (string * Z);
  timeout : Z;
  remote_addr : option string;
  remote_port : option Z;
  sock : option socket
}.

Definition with_remote (a : string) (p : Z) (c : t) : t :=
  {| pid := pid c; host_tuple := host_tuple c; timeout := timeout c;
     remote_addr := Some a; remote_port := Some p; sock := sock c |}.

Definition with_sock (s : option socket) (c : t) : t :=
  {| pid := pid c; host_tuple := host_tuple c; timeout := timeout c;
     remote_addr := remote_addr c; remote_port := remote_port c; sock := s |}.

End Connection.

Module ConnectionPool.

Record t := {
  pool_name : string;
  pid : Z;
  max_conn : Z;
  conn_kwargs : list (string * Z) * Z;      (* host_tuple, timeout *)
  _conns_created : Z;
  _conns_available : list ref;
  _conns_inuse : gset ref;
  debug : bool
}.

Definition with_created (n : Z) (p : t) : t :=
  {| pool_name := pool_name p; pid := pid p; max_conn := max_conn p;
     conn_kwargs := conn_kwargs p; _conns_created := n;
     _conns_available := _conns_available p;
     _conns_inuse := _conns_inuse p; debug := debug p |}.

Definition with_available (l : list ref) (p : t) : t :=
  {| pool_name := pool_name p; pid := pid p; max_conn := max_conn p;
     conn_kwargs := conn_kwargs p; _conns_created := _conns_created p;
     _conns_available := l;
     _conns_inuse := _conns_inuse p; debug := debug p |}.

Definition with_inuse (s : gset ref) (p : t) : t :=
  {| pool_name := pool_name p; pid := pid p; max_conn := max_conn p;
     conn_kwargs := conn_kwargs p; _conns_created := _conns_created p;
     _conns_available := _conns_available p;
     _conns_inuse := s; debug := debug p |}.

End ConnectionPool.

(** The mutable world one pool lives in. *)
Record World := {
  self : ConnectionPool.t;               (* the pool object *)
  getpid : Z;                            (* what os.getpid() returns *)
  heap : gmap ref Connection.t;          (* the Connection objects *)
  next_ref : ref;                        (* identity of the next object *)
  network : list attempt;                (* future connect attempts *)
  closing : list bool;                   (* future sock.close() outcomes *)
  trace : list event                     (* what happened, oldest first *)
}.

Definition set_self (p : ConnectionPool.t) (w : World) : World :=
  {| self := p; getpid := getpid w; heap := heap w; next_ref := next_ref w;
     network := network w; closing := closing w; trace := trace w |}.

Definition set_heap (h : gmap ref Connection.t) (w : World) : World :=
  {| self := self w; getpid := getpid w; heap := h; next_ref := next_ref w;
     network := network w; closing := closing w; trace := trace w |}.

Definition set_next_ref (n : ref) (w : World) : World :=
  {| self := self w; getpid := getpid w; heap := heap w; next_ref := n;
     network := network w; closing := closing w; trace := trace w |}.

Definition set_network (l : list attempt) (w : World) : World :=
  {| self := self w; getpid := getpid w; heap := heap w; next_ref := next_ref w;
     network := l; closing := closing w; trace := trace w |}.

Definition set_closing (l : list bool) (w : World) : World :=
  {| self := self w; getpid := getpid w; heap := heap w; next_ref := next_ref w;
     network := network w; closing := l; trace := trace w |}.

Definition log (e : event) (w : World) : World :=
  {| self := self w; getpid := getpid w; heap := heap w; next_ref := next_ref w;
     network := network w; closing := closing w; trace := trace w ++ [e] |}.

(** After a fork the child sees the same objects under a new process id. *)
Definition fork (child : Z) (w : World) : World :=
  {| self := self w; getpid := child; heap := heap w; next_ref := next_ref w;
     network := network w; closing := closing w; trace := trace w |}.

Abbreviation M := (ST World).

Definition is_ConnectionError (e : exn) : bool :=
  match e with ConnectionError _ => true | _ => false end.
Definition is_SocketError (e : exn) : bool :=
  match e with SocketError => true | _ => false end.

(** Read, write and create Connection objects. *)
Definition deref (c : ref) : M Connection.t :=
  λ w, match heap w !! c with
       | Some o => (Ok o, w)
       | None => (Raise AttributeError, w)
       end.
Definition assign (c : ref) (o : Connection.t) : M unit :=
  modify (λ w, set_heap (<[c := o]> (heap w)) w).
Definition alloc (o : Connection.t) : M ref :=
  λ w, (Ok (next_ref w),
        set_next_ref (S (next_ref w)) (set_heap (<[next_ref w := o]> (heap w)) w)).

Definition update_self (f : ConnectionPool.t → ConnectionPool.t) : M unit :=
  modify (λ w, set_self (f (self w)) w).
(** Every assignment to [_conns_created] is recorded in the trace. *)
Definition set_created (n : Z) : M unit :=
  modify (λ w, log (EvCreated n) (set_self (ConnectionPool.with_created n (self w)) w)).

Definition next_attempt : M attempt :=
  λ w, match network w with
       | a :: rest => (Ok a, set_network rest w)
       | [] => (Ok {| pick := 0; reachable := false |}, w)
       end.

Definition next_close : M bool :=
  λ w, match closing w with
       | b :: rest => (Ok b, set_closing rest w)
       | [] => (Ok true, w)
       end.

(** [list.pop()]: the last element and the list without it. *)
Definition pop {A} (l : list A) : option (list A * A) :=
  match rev l with
  | [] => None
  | x :: r => Some (rev r, x)
  end.

(** [list.remove(x)]: drops the first occurrence of [x]. *)
Fixpoint remove_first (x : ref) (l : list ref) : list ref :=
  match l with
  | [] => []
  | y :: l' => if decide (x = y) then l' else y :: remove_first x l'
  end.

Fixpoint for_each {A} (l : list A) (body : A → M unit) : M unit :=
  match l with
  | [] => ret tt
  | x :: l' => body x;; for_each l' body
  end.

(** Methods of class [Connection]. *)
Module Conn.
Import Connection.

Definition __init__ (host_tuple : list (string * Z)) (timeout : Z) : M ref :=
  p ← gets getpid;
  alloc {| pid := p; host_tuple := host_tuple; timeout := timeout;
           remote_addr := None; remote_port := None; sock := None |}.

Definition _errormessage (c : ref) : M exn :=
  o ← deref c;
  ret (ConnectionError (ErrorMessage (remote_addr o) (remote_port o))).

Definition _connect (c : ref) : M socket :=
  o ← deref c;
  a ← next_attempt;
  match host_tuple o !! (pick a mod length (host_tuple o))%nat with
  | None => raise IndexError                 (* random.choice of an empty tuple *)
  | Some (addr, port) =>
      assign c (with_remote addr port o);;
      modify (log (EvConnect addr port (reachable a)));;
      if reachable a
      then ret {| peer_addr := addr; peer_port := port |}
      else raise SocketError
  end.

Definition connect (c : ref) : M unit :=
  o ← deref c;
  match sock o with
  | Some _ => ret tt
  | None =>
      s ← try_except (_connect c)
            (λ e, if is_SocketError e
                  then Some (e' ← _errormessage c; raise e')
                  else None);
      o' ← deref c;
      assign c (with_sock (Some s) o')
  end.

Definition disconnect (c : ref) : M unit :=
  o ← deref c;
  match sock o with
  | None => ret tt
  | Some _ =>
      ok ← next_close;
      modify (log (EvClose ok));;
      if ok : bool
      then assign c (with_sock None o)
      else e' ← _errormessage c; raise e'
  end.

Definition get_sock (c : ref) : M (option socket) :=
  o ← deref c; ret (sock o).

End Conn.

(** Methods of class [ConnectionPool]; [self] is the pool of the world. *)
Module Pool.
Import ConnectionPool.

Definition __init__ (name : string) (max_conn : option Z) (debug : bool)
    (conn_kwargs : list (string * Z) * Z) : M unit :=
  p ← gets getpid;
  modify (set_self
    {| pool_name := name; pid := p;
       max_conn := match max_conn with            (* max_conn or 2 ** 31 *)
                   | Some n => if (n =? 0)%Z then (2 ^ 31)%Z else n
                   | None => (2 ^ 31)%Z
                   end;
       conn_kwargs := conn_kwargs;
       _conns_created := 0;
       _conns_available := [];
       _conns_inuse := ∅;
       debug := debug |});;
  modify (log (EvCreated 0)).

(** [chain(self._conns_inuse, self._conns_available)]; a failed
    [disconnect] ends the loop. *)
Definition destroy : M unit :=
  p ← gets self;
  for_each (elements (_conns_inuse p) ++ _conns_available p) Conn.disconnect.

(** [__init__] is run again with the name, the capacity and the
    connection arguments of the pool; [debug] falls back to its default. *)
Definition _check_pid : M unit :=
  p ← gets self;
  q ← gets getpid;
  if decide (pid p = q) then ret tt
  else destroy;;
       __init__ (pool_name p) (Some (max_conn p)) false (conn_kwargs p).

(** The [while num_try > 0] loop of [make_conn] and the [raise] after it.
    The [break] under [if num_try <= 0] cannot be reached inside the
    loop, and the [print] under [self.debug] changes nothing here.  Only
    [ConnectionError] is caught; the objects of failed tries stay on the
    heap. *)
Fixpoint make_conn_loop (num_try : nat) : M ref :=
  match num_try with
  | O => raise (ConnectionError FailAfter3Times)
  | S n =>
      try_except
        (p ← gets self;
         conn_instance ← Conn.__init__ (conn_kwargs p).1 (conn_kwargs p).2;
         Conn.connect conn_instance;;
         p ← gets self;
         set_created (_conns_created p + 1);;
         ret conn_instance)
        (λ e, if is_ConnectionError e then Some (make_conn_loop n) else None)
  end.

Definition make_conn : M ref :=
  p ← gets self;
  if (max_conn p <=? _conns_created p)%Z
  then raise (ConnectionError TooManyConnections)
  else make_conn_loop 3.

(** [self._conns_available.pop()] raises [IndexError] on an empty list,
    and the handler calls [make_conn], outside the [try]. *)
Definition get_connection : M ref :=
  _check_pid;;
  p ← gets self;
  conn ← match pop (_conns_available p) with
         | Some (rest, conn) => update_self (with_available rest);; ret conn
         | None => make_conn                         (* except IndexError *)
         end;
  update_self (λ p, with_inuse ({[conn]} ∪ _conns_inuse p) p);;
  ret conn.

(** Two independent [if]s, each with its own decrement. *)
Definition remove (conn : ref) : M unit :=
  p ← gets self;
  (if decide (conn ∈ _conns_inuse p)
   then update_self (with_inuse (_conns_inuse p ∖ {[conn]}));;
        set_created (_conns_created p - 1)
   else ret tt);;
  p ← gets self;
  if decide (conn ∈ _conns_available p)
  then update_self (with_available (remove_first conn (_conns_available p)));;
       set_created (_conns_created p - 1)
  else ret tt.

(** [set.remove] raises [KeyError] when [conn] is not in use. *)
Definition release (conn : ref) : M unit :=
  _check_pid;;
  o ← deref conn;
  p ← gets self;
  if decide (Connection.pid o = pid p)
  then (if decide (conn ∈ _conns_inuse p)
        then update_self (with_inuse (_conns_inuse p ∖ {[conn]}))
        else raise KeyError);;
       update_self (λ p, with_available (_conns_available p ++ [conn]) p)
  else ret tt.

End Pool.

(** *** tcp_recv_response *)

(** The two string types of Python, text and bytes.  [x += y] appends
    two strings of one type and raises [TypeError] on a mix of them. *)
Inductive pystring : Type :=
| Str (s : string)
| Bytes (b : list Byte.byte).

Definition iadd (x y : pystring) : result pystring :=
  match x, y with
  | Str a, Str b => Ok (Str (a +:+ b))
  | Bytes a, Bytes b => Ok (Bytes (a ++ b))
  | _, _ => Raise TypeError
  end.

(** A format with one [%s] applied to a tuple: the tuple must have
    exactly one element, or the formatting raises [TypeError]. *)
Definition format_one (args : list pyarg) : result pyarg :=
  match args with
  | [a] => Ok a
  | _ => Raise TypeError
  end.

(** What one [conn.sock.recv] call meets: some bytes, or a socket error
    or timeout, an exception with its [args].  When the list of events is
    used up the peer has closed the connection, and [recv] returns the
    empty bytes string from then on. *)
Inductive recv_event : Type :=
| RecvBytes (data : list Byte.byte)
| RecvError (args : list pyarg).

(** A call returns, raises, or never leaves its [while 1] loop. *)
Inductive outcome (A : Type) : Type :=
| Returns (a : A)
| Raises (e : exn)
| Loops.
Arguments Returns {A} a.
Arguments Raises {A} e.
Arguments Loops {A}.

(** The [except (socket.error, socket.timeout) as e] clause: the message
    of the [ConnectionError] is built from [e.args] first. *)
Definition recv_failed {A} (args : list pyarg) : outcome A :=
  match format_one args with
  | Ok arg => Raises (ConnectionError (WhileReading arg))
  | Raise e => Raises e
  end.

(** The loop of [tcp_recv_response].  Either branch of the [if] calls
    [recv], which hands over at most [buffer_size] bytes, then does
    [response += resp] and [total_size += len(resp)]; the first branch
    ends with [break].  An exception that is not a socket error goes
    through the [try].  At end of stream [recv] returns the empty bytes
    string: a loop that got past [response += resp] would either take its
    [break] or repeat in the same state for ever. *)
Fixpoint recv_loop (total_bytes_size buffer_size : Z) (incoming : list recv_event)
    (response : pystring) (total_size : Z) : outcome (pystring * Z) :=
  match incoming with
  | [] =>
      match iadd response (Bytes []) with
      | Raise e => Raises e
      | Ok response' =>
          if (total_bytes_size - total_size <=? buffer_size)%Z
          then Returns (response', total_size)
          else Loops
      end
  | RecvError args :: _ => recv_failed args
  | RecvBytes data :: rest =>
      let resp := take (Z.to_nat buffer_size) data in
      match iadd response (Bytes resp) with
      | Raise e => Raises e
      | Ok response' =>
          if (total_bytes_size - total_size <=? buffer_size)%Z
          then Returns (response', (total_size + Z.of_nat (length resp))%Z)
          else recv_loop total_bytes_size buffer_size rest
                 response' (total_size + Z.of_nat (length resp))%Z
      end
  end.

(** [conn.sock] is given by the events its [recv] calls will meet.
    [response] starts as the empty text string.  A negative
    [buffer_size] makes the first [recv] raise [ValueError]. *)
Definition tcp_recv_response (incoming : list recv_event)
    (bytes_size buffer_size : Z) : outcome (pystring * Z) :=
  if (buffer_size <? 0)%Z then Raises ValueError
  else recv_loop bytes_size buffer_size incoming (Str EmptyString) 0.

(** ** client.py *)

(** Modelled from the spec: the file-id parser [split_remote_fileid] of
    fdfs_client/utils.py, which is not part of the sources at hand.  A
    string of the form group/relative-path is cut at its first slash; a
    string without a slash does not parse ([None]). *)
Fixpoint split_remote_fileid (remote_file_id : string) : option (string * string) :=
  match remote_file_id with
  | EmptyString => None
  | String c rest =>
      if Ascii.eqb c "/"%char then Some (EmptyString, rest)
      else match split_remote_fileid rest with
           | Some (group_name, filename) => Some (String c group_name, filename)
           | None => None
           end
  end.

(** Modelled from the spec: the result of a tracker resolution, class
    [Storage_server] of fdfs_client/tracker_client.py. *)
Record Storage_server := {
  ip_addr : string;
  port : Z;
  store_path_index : Z
}.

Inductive value : Type :=
| VStr (s : string)
| VInt (z : Z)
| VBytes (b : list Byte.byte).

Abbreviation dict := (gmap string value).
Abbreviation meta := (option (gmap string string)).
(** A buffer argument: [None] or a byte string. *)
Abbreviation buffer := (option (list Byte.byte)).

(** Python truth of a buffer and of a string. *)
Definition buffer_true (b : buffer) : bool :=
  match b with
  | Some (_ :: _) => true
  | _ => false
  end.
Definition string_true (s : string) : bool :=
  match s with
  | EmptyString => false
  | _ => true
  end.

(** The commands of [Tracker_client] the facade issues. *)
Inductive tracker_query : Type :=
| tracker_query_storage_stor_without_group
| tracker_query_storage_stor_with_group (group_name : string)
| tracker_query_storage_update (group_name remote_filename : string)
| tracker_query_storage_fetch (group_name remote_filename : string).

(** The methods of [Storage_client] the facade calls, with the arguments
    it passes, in the order it passes them (the tracker client [tc], which
    only wraps the tracker pool, is left out). *)
Inductive storage_request : Type :=
| storage_upload_by_filename (store_serv : Storage_server) (filename : string) (meta_dict : meta)
| storage_upload_by_file (store_serv : Storage_server) (filename : string) (meta_dict : meta)
| storage_upload_by_buffer (store_serv : Storage_server) (filebuffer : buffer)
    (file_ext_name : option string) (meta_dict : meta)
| storage_upload_slave_by_filename (store_serv : Storage_server)
    (filename prefix_name remote_filename : string) (meta_dict : meta)
| storage_upload_slave_by_file (store_serv : Storage_server)
    (filename prefix_name remote_filename : string) (meta_dict : meta)
| storage_upload_slave_by_buffer (store_serv : Storage_server) (filebuffer : buffer)
    (remote_filename : string) (meta_dict : meta) (file_ext_name : option string)
| storage_upload_appender_by_filename (store_serv : Storage_server)
    (local_filename : string) (meta_dict : meta)
| storage_upload_appender_by_file (store_serv : Storage_server)
    (local_filename : string) (meta_dict : meta)
| storage_upload_appender_by_buffer (store_serv : Storage_server) (filebuffer : buffer)
    (meta_dict : meta) (file_ext_name : option string)
| storage_delete_file (store_serv : Storage_server) (remote_filename : string)
| storage_download_to_file (store_serv : Storage_server) (local_filename : string)
    (file_offset download_bytes : Z) (remote_filename : string)
| storage_download_to_buffer (store_serv : Storage_server) (file_buffer : buffer)
    (file_offset download_bytes : Z) (remote_filename : string)
| storage_get_metadata (store_serv : Storage_server) (remote_filename : string)
| storage_append_by_filename (store_serv : Storage_server)
    (local_filename appended_filename : string)
| storage_append_by_file (store_serv : Storage_server)
    (local_filename appended_filename : string)
| storage_append_by_buffer (store_serv : Storage_server) (file_buffer : buffer)
    (appended_filename : string)
| storage_truncate_file (store_serv : Storage_server) (trunc_filesize : Z)
    (appender_filename : string)
| storage_modify_by_filename (store_serv : Storage_server) (filename : string)
    (file_offset filesize : Z) (appender_filename : string)
| storage_modify_by_file (store_serv : Storage_server) (filename : string)
    (file_offset filesize : Z) (appender_filename : string)
| storage_modify_by_buffer (store_serv : Storage_server) (filebuffer : buffer)
    (file_offset filesize : Z) (appender_filename : string).

(** A [Storage_client] object as its constructor receives it. *)
Record Storage_client := {
  sc_ip_addr : string;
  sc_port : Z;
  sc_timeout : Z
}.

(** A call that leaves the facade for the network: a tracker command, or
    a method of the Storage_client object [store]. *)
Inductive call : Type :=
| TrackerCall (q : tracker_query)
| StorageCall (store : ref) (req : storage_request)
| SetMetadataCall (store : ref) (store_serv : Storage_server)
    (remote_filename : string) (meta_dict : meta).

(** The collaborators of the facade.  The tracker and the storage nodes
    answer a request given all calls made before it. *)
Record Env := {
  fdfs_check_file : string → bool * string;        (* utils.fdfs_check_file *)
  tracker : list call → tracker_query → result Storage_server;
  storage : list call → ref → storage_request → result dict;
  storage_set_metadata :
    list call → ref → Storage_server → string → meta → result Z
}.

(** The [Fdfs_client] object and the Storage_client objects it made. *)
Record Fdfs_client := {
  timeout : Z;                             (* self.timeout *)
  storages : gmap (string * Z) ref;        (* self.storages *)
  objects : gmap ref Storage_client;       (* the Storage_client objects *)
  next_object : ref;                       (* identity of the next object *)
  calls : list call                        (* network calls, oldest first *)
}.

Definition set_storages (m : gmap (string * Z) ref) (s : Fdfs_client) : Fdfs_client :=
  {| timeout := timeout s; storages := m; objects := objects s;
     next_object := next_object s; calls := calls s |}.

Definition record (c : call) (s : Fdfs_client) : Fdfs_client :=
  {| timeout := timeout s; storages := storages s; objects := objects s;
     next_object := next_object s; calls := calls s ++ [c] |}.

Abbreviation F := (ST Fdfs_client).

(** [Storage_client(ip_addr, port, timeout)]: a new object. *)
Definition new_Storage_client (ip_addr : string) (port tmo : Z) : F ref :=
  λ s, (Ok (next_object s),
        {| timeout := timeout s; storages := storages s;
           objects := <[next_object s :=
                         {| sc_ip_addr := ip_addr; sc_port := port;
                            sc_timeout := tmo |}]> (objects s);
           next_object := S (next_object s); calls := calls s |}).

(** Reading a local variable that no assignment has bound. *)
Definition local {A} (name : string) (v : option A) : F A :=
  match v with
  | Some x => ret x
  | None => raise (UnboundLocalError name)
  end.

(** client.py does not import [os]: evaluating the name raises. *)
Definition os {A} : F A := raise (NameError "os").

(** Methods of class [Fdfs_client]. *)
Module Facade.
Section methods.
Variable env : Env.

(** A command sent through [Tracker_client(self.tracker_pool)]. *)
Definition tracker_call (q : tracker_query) : F Storage_server :=
  λ s, (tracker env (calls s) q, record (TrackerCall q) s).

(** A method call on the Storage_client object [store]. *)
Definition storage_call (store : ref) (req : storage_request) : F dict :=
  λ s, (storage env (calls s) store req, record (StorageCall store req) s).

Definition set_metadata_call (store : ref) (store_serv : Storage_server)
    (remote_filename : string) (meta_dict : meta) : F Z :=
  λ s, (storage_set_metadata env (calls s) store store_serv remote_filename meta_dict,
        record (SetMetadataCall store store_serv remote_filename meta_dict) s).

Definition get_storage (store_serv : Storage_server) : F ref :=
  m ← gets storages;
  match m !! (ip_addr store_serv, port store_serv) with
  | Some store => ret store
  | None =>
      t ← gets timeout;
      store ← new_Storage_client (ip_addr store_serv) (port store_serv) t;
      modify (λ s, set_storages
                     (<[(ip_addr store_serv, port store_serv) := store]> (storages s)) s);;
      ret store
  end.

Definition get_store_serv (remote_file_id : string) : F Storage_server :=
  match split_remote_fileid remote_file_id with
  | None => raise (DataError "[-] Error: remote_file_id is invalid.(in delete file)")
  | Some (group_name, remote_filename) =>
      tracker_call (tracker_query_storage_update group_name remote_filename)
  end.

Definition upload_by_filename (filename : string) (meta_dict : meta) : F dict :=
  let '(isfile, errmsg) := fdfs_check_file env filename in
  if negb isfile then raise (DataError (errmsg +:+ "(uploading)"))
  else
    store_serv ← tracker_call tracker_query_storage_stor_without_group;
    store ← get_storage store_serv;
    storage_call store (storage_upload_by_filename store_serv filename meta_dict).

Definition upload_by_file (filename : string) (meta_dict : meta) : F dict :=
  let '(isfile, errmsg) := fdfs_check_file env filename in
  if negb isfile then raise (DataError (errmsg +:+ "(uploading)"))
  else
    store_serv ← tracker_call tracker_query_storage_stor_without_group;
    store ← get_storage store_serv;
    storage_call store (storage_upload_by_file store_serv filename meta_dict).

Definition upload_by_buffer (filebuffer : buffer) (file_ext_name : option string)
    (meta_dict : meta) : F dict :=
  if negb (buffer_true filebuffer)
  then raise (DataError "[-] Error: argument filebuffer can not be null.")
  else
    store_serv ← tracker_call tracker_query_storage_stor_without_group;
    store ← get_storage store_serv;
    storage_call store
      (storage_upload_by_buffer store_serv filebuffer file_ext_name meta_dict).

(** The storage call receives [meta_dict=None] whatever the caller gave. *)
Definition upload_slave_by_filename (filename remote_file_id prefix_name : string)
    (meta_dict : meta) : F dict :=
  let '(isfile, errmsg) := fdfs_check_file env filename in
  if negb isfile then raise (DataError (errmsg +:+ "(uploading slave)"))
  else match split_remote_fileid remote_file_id with
  | None => raise (DataError "[-] Error: remote_file_id is invalid.(uploading slave)")
  | Some (group_name, remote_filename) =>
      if negb (string_true prefix_name)
      then raise (DataError "[-] Error: prefix_name can not be null.")
      else
        store_serv ← tracker_call (tracker_query_storage_stor_with_group group_name);
        store ← get_storage store_serv;
        ret_dict ← storage_call store
          (storage_upload_slave_by_filename store_serv filename prefix_name
             remote_filename None);
        ret (<["Status" := VStr "Upload slave file successed."]> ret_dict)
  end.

Definition upload_slave_by_file (filename remote_file_id prefix_name : string)
    (meta_dict : meta) : F dict :=
  let '(isfile, errmsg) := fdfs_check_file env filename in
  if negb isfile then raise (DataError (errmsg +:+ "(uploading slave)"))
  else match split_remote_fileid remote_file_id with
  | None => raise (DataError "[-] Error: remote_file_id is invalid.(uploading slave)")
  | Some (group_name, remote_filename) =>
      if negb (string_true prefix_name)
      then raise (DataError "[-] Error: prefix_name can not be null.")
      else
        store_serv ← tracker_call (tracker_query_storage_stor_with_group group_name);
        store ← get_storage store_serv;
        ret_dict ← storage_call store
          (storage_upload_slave_by_file store_serv filename prefix_name
             remote_filename None);
        ret (<["Status" := VStr "Upload slave file successed."]> ret_dict)
  end.

Definition upload_slave_by_buffer (filebuffer : buffer) (remote_file_id : string)
    (meta_dict : meta) (file_ext_name : option string) : F dict :=
  if negb (buffer_true filebuffer)
  then raise (DataError "[-] Error: argument filebuffer can not be null.")
  else match split_remote_fileid remote_file_id with
  | None => raise (DataError "[-] Error: remote_file_id is invalid.(uploading slave)")
  | Some (group_name, remote_filename) =>
      store_serv ← tracker_call (tracker_query_storage_update group_name remote_filename);
      store ← get_storage store_serv;
      storage_call store
        (storage_upload_slave_by_buffer store_serv filebuffer remote_filename
           meta_dict file_ext_name)
  end.

Definition upload_appender_by_filename (local_filename : string) (meta_dict : meta)
    : F dict :=
  let '(isfile, errmsg) := fdfs_check_file env local_filename in
  if negb isfile then raise (DataError (errmsg +:+ "(uploading appender)"))
  else
    store_serv ← tracker_call tracker_query_storage_stor_without_group;
    store ← get_storage store_serv;
    storage_call store
      (storage_upload_appender_by_filename store_serv local_filename meta_dict).

Definition upload_appender_by_file (local_filename : string) (meta_dict : meta)
    : F dict :=
  let '(isfile, errmsg) := fdfs_check_file env local_filename in
  if negb isfile then raise (DataError (errmsg +:+ "(uploading appender)"))
  else
    store_serv ← tracker_call tracker_query_storage_stor_without_group;
    store ← get_storage store_serv;
    storage_call store
      (storage_upload_appender_by_file store_serv local_filename meta_dict).

Definition upload_appender_by_buffer (filebuffer : buffer)
    (file_ext_name : option string) (meta_dict : meta) : F dict :=
  if negb (buffer_true filebuffer)
  then raise (DataError "[-] Error: argument filebuffer can not be null.")
  else
    store_serv ← tracker_call tracker_query_storage_stor_without_group;
    store ← get_storage store_serv;
    storage_call store
      (storage_upload_appender_by_buffer store_serv filebuffer meta_dict file_ext_name).

Definition delete_file (remote_file_id : string) : F dict :=
  match split_remote_fileid remote_file_id with
  | None => raise (DataError "[-] Error: remote_file_id is invalid.(in delete file)")
  | Some (group_name, remote_filename) =>
      store_serv ← tracker_call (tracker_query_storage_update group_name remote_filename);
      store ← get_storage store_serv;
      storage_call store (storage_delete_file store_serv remote_filename)
  end.

(** [file_offset] and [download_bytes] are assigned only under
    [if not offset:] and [if not down_bytes:]; the arguments of the
    storage call are evaluated from left to right. *)
Definition download_to_file (local_filename remote_file_id : string)
    (offset down_bytes : Z) : F dict :=
  match split_remote_fileid remote_file_id with
  | None => raise (DataError "[-] Error: remote_file_id is invalid.(in download file)")
  | Some (group_name, remote_filename) =>
      let file_offset := if (offset =? 0)%Z then Some offset else None in
      let download_bytes := if (down_bytes =? 0)%Z then Some down_bytes else None in
      store_serv ← tracker_call (tracker_query_storage_fetch group_name remote_filename);
      t ← gets timeout;
      store ← new_Storage_client (ip_addr store_serv) (port store_serv) t;
      file_offset ← local "file_offset" file_offset;
      download_bytes ← local "download_bytes" download_bytes;
      storage_call store
        (storage_download_to_file store_serv local_filename file_offset
           download_bytes remote_filename)
  end.

Definition download_to_buffer (remote_file_id : string) (offset down_bytes : Z)
    : F dict :=
  match split_remote_fileid remote_file_id with
  | None => raise (DataError "[-] Error: remote_file_id is invalid.(in download file)")
  | Some (group_name, remote_filename) =>
      let file_offset := if (offset =? 0)%Z then Some offset else None in
      let download_bytes := if (down_bytes =? 0)%Z then Some down_bytes else None in
      store_serv ← tracker_call (tracker_query_storage_fetch group_name remote_filename);
      t ← gets timeout;
      store ← new_Storage_client (ip_addr store_serv) (port store_serv) t;
      let file_buffer : buffer := None in
      file_offset ← local "file_offset" file_offset;
      download_bytes ← local "download_bytes" download_bytes;
      storage_call store
        (storage_download_to_buffer store_serv file_buffer file_offset
           download_bytes remote_filename)
  end.

Definition get_meta_data (remote_file_id : string) : F dict :=
  match split_remote_fileid remote_file_id with
  | None => raise (DataError "[-] Error: remote_file_id is invalid.(in get meta data)")
  | Some (group_name, remote_filename) =>
      store_serv ← tracker_call (tracker_query_storage_update group_name remote_filename);
      t ← gets timeout;
      store ← new_Storage_client (ip_addr store_serv) (port store_serv) t;
      storage_call store (storage_get_metadata store_serv remote_filename)
  end.

(** [op_flag] is accepted and not passed on.  The [except] clause only
    re-raises.  Building the message of the [DataError] evaluates
    [os.strerror(status)]. *)
Definition set_meta_data (remote_file_id : string) (meta_dict : meta)
    (op_flag : string) : F dict :=
  match split_remote_fileid remote_file_id with
  | None => raise (DataError "[-] Error: remote_file_id is invalid.(in set meta data)")
  | Some (group_name, remote_filename) =>
      store_serv ← tracker_call (tracker_query_storage_update group_name remote_filename);
      t ← gets timeout;
      store ← new_Storage_client (ip_addr store_serv) (port store_serv) t;
      status ← set_metadata_call store store_serv remote_filename meta_dict;
      if negb (status =? 0)%Z
      then strerror ← os (A := string);
           raise (DataError strerror)
      else ret (<["Status" := VStr "Set meta data success."]>
                  (<["Storage IP" := VStr (ip_addr store_serv)]> ∅))
  end.

Definition append_by_filename (local_filename remote_fileid : string) : F dict :=
  let '(isfile, errmsg) := fdfs_check_file env local_filename in
  if negb isfile then raise (DataError (errmsg +:+ "(append)"))
  else match split_remote_fileid remote_fileid with
  | None => raise (DataError "[-] Error: remote_file_id is invalid.(append)")
  | Some (group_name, appended_filename) =>
      store_serv ← tracker_call (tracker_query_storage_update group_name appended_filename);
      t ← gets timeout;
      store ← new_Storage_client (ip_addr store_serv) (port store_serv) t;
      storage_call store
        (storage_append_by_filename store_serv local_filename appended_filename)
  end.

Definition append_by_file (local_filename remote_fileid : string) : F dict :=
  let '(isfile, errmsg) := fdfs_check_file env local_filename in
  if negb isfile then raise (DataError (errmsg +:+ "(append)"))
  else match split_remote_fileid remote_fileid with
  | None => raise (DataError "[-] Error: remote_file_id is invalid.(append)")
  | Some (group_name, appended_filename) =>
      store_serv ← tracker_call (tracker_query_storage_update group_name appended_filename);
      t ← gets timeout;
      store ← new_Storage_client (ip_addr store_serv) (port store_serv) t;
      storage_call store
        (storage_append_by_file store_serv local_filename appended_filename)
  end.

Definition append_by_buffer (file_buffer : buffer) (remote_fileid : string) : F dict :=
  if negb (buffer_true file_buffer)
  then raise (DataError "[-] Error: file_buffer can not be null.")
  else match split_remote_fileid remote_fileid with
  | None => raise (DataError "[-] Error: remote_file_id is invalid.(append)")
  | Some (group_name, appended_filename) =>
      store_serv ← tracker_call (tracker_query_storage_update group_name appended_filename);
      t ← gets timeout;
      store ← new_Storage_client (ip_addr store_serv) (port store_serv) t;
      storage_call store
        (storage_append_by_buffer store_serv file_buffer appended_filename)
  end.

Definition truncate_file (truncated_filesize : Z) (appender_fileid : string) : F dict :=
  let trunc_filesize := truncated_filesize in
  match split_remote_fileid appender_fileid with
  | None => raise (DataError "[-] Error: appender_fileid is invalid.(truncate)")
  | Some (group_name, appender_filename) =>
      store_serv ← tracker_call (tracker_query_storage_update group_name appender_filename);
      t ← gets timeout;
      store ← new_Storage_client (ip_addr store_serv) (port store_serv) t;
      storage_call store
        (storage_truncate_file store_serv trunc_filesize appender_filename)
  end.

(** [filesize = os.stat(filename).st_size] comes right after the file
    check.  [file_offset] is [offset] when [offset] is zero, else 0. *)
Definition modify_by_filename (filename appender_fileid : string) (offset : Z)
    : F dict :=
  let '(isfile, errmsg) := fdfs_check_file env filename in
  if negb isfile then raise (DataError (errmsg +:+ "(modify)"))
  else
    filesize ← os (A := Z);
    match split_remote_fileid appender_fileid with
    | None => raise (DataError "[-] Error: remote_fileid is invalid.(modify)")
    | Some (group_name, appender_filename) =>
        let file_offset := if (offset =? 0)%Z then offset else 0%Z in
        store_serv ← tracker_call
          (tracker_query_storage_update group_name appender_filename);
        t ← gets timeout;
        store ← new_Storage_client (ip_addr store_serv) (port store_serv) t;
        storage_call store
          (storage_modify_by_filename store_serv filename file_offset filesize
             appender_filename)
    end.

Definition modify_by_file (filename appender_fileid : string) (offset : Z)
    : F dict :=
  let '(isfile, errmsg) := fdfs_check_file env filename in
  if negb isfile then raise (DataError (errmsg +:+ "(modify)"))
  else
    filesize ← os (A := Z);
    match split_remote_fileid appender_fileid with
    | None => raise (DataError "[-] Error: remote_fileid is invalid.(modify)")
    | Some (group_name, appender_filename) =>
        let file_offset := if (offset =? 0)%Z then offset else 0%Z in
        store_serv ← tracker_call
          (tracker_query_storage_update group_name appender_filename);
        t ← gets timeout;
        store ← new_Storage_client (ip_addr store_serv) (port store_serv) t;
        storage_call store
          (storage_modify_by_file store_serv filename file_offset filesize
             appender_filename)
    end.

Definition modify_by_buffer (filebuffer : buffer) (appender_fileid : string)
    (offset : Z) : F dict :=
  if negb (buffer_true filebuffer)
  then raise (DataError "[-] Error: filebuffer can not be null.(modify)")
  else
    let filesize := Z.of_nat (length (default [] filebuffer)) in
    match split_remote_fileid appender_fileid with
    | None => raise (DataError "[-] Error: remote_fileid is invalid.(modify)")
    | Some (group_name, appender_filename) =>
        let file_offset := if (offset =? 0)%Z then offset else 0%Z in
        store_serv ← tracker_call
          (tracker_query_storage_update group_name appender_filename);
        t ← gets timeout;
        store ← new_Storage_client (ip_addr store_serv) (port store_serv) t;
        storage_call store
          (storage_modify_by_buffer store_serv filebuffer file_offset filesize
             appender_filename)
    end.

End methods.
End Facade.

(** ** Runs of a pool *)

(** The values [_conns_created] was given, oldest first. *)
Definition created_history (tr : list event) : list Z :=
  omap (λ e, match e with EvCreated n => Some n | _ => None end) tr.

(** The outcomes of the [socket.create_connection] calls, oldest first. *)
Definition connects (tr : list event) : list bool :=
  omap (λ e, match e with EvConnect _ _ ok => Some ok | _ => None end) tr.

(** What a computation appended to the trace. *)
Definition new_events {A} (m : M A) (w : World) : list event :=
  drop (length (trace w)) (trace (m w).2).

(** A pool object before [__init__] has run. *)
Definition blank : ConnectionPool.t :=
  {| ConnectionPool.pool_name := EmptyString; ConnectionPool.pid := 0;
     ConnectionPool.max_conn := 0; ConnectionPool.conn_kwargs := ([], 0%Z);
     ConnectionPool._conns_created := 0; ConnectionPool._conns_available := [];
     ConnectionPool._conns_inuse := ∅; ConnectionPool.debug := false |}.

(** A process with no Connection object yet. *)
Definition boot (pid : Z) (net : list attempt) (cl : list bool) : World :=
  {| self := blank; getpid := pid; heap := ∅; next_ref := 0;
     network := net; closing := cl; trace := [] |}.

(** [ConnectionPool(name, max_conn=..., debug=..., **conn_kwargs)]. *)
Definition new_pool (name : string) (max_conn : option Z) (debug : bool)
    (conn_kwargs : list (string * Z) * Z) (w : World) : World :=
  (Pool.__init__ name max_conn debug conn_kwargs w).2.

(** The operations on a pool, and a fork of the process between them. *)
Inductive pool_op : Type :=
| Get_connection
| Release (conn : ref)
| Remove (conn : ref)
| Fork (child : Z).

Definition step (o : pool_op) (w : World) : World :=
  match o with
  | Get_connection => (Pool.get_connection w).2
  | Release conn => (Pool.release conn w).2
  | Remove conn => (Pool.remove conn w).2
  | Fork child => fork child w
  end.

(** [release] is called on a connection in use, [remove] on a connection
    of the pool. *)
Definition precondition (o : pool_op) (w : World) : Prop :=
  match o with
  | Release conn => conn ∈ ConnectionPool._conns_inuse (self w)
  | Remove conn =>
      conn ∈ ConnectionPool._conns_inuse (self w)
      ∨ conn ∈ ConnectionPool._conns_available (self w)
  | _ => True
  end.

Fixpoint run (ops : list pool_op) (w : World) : World :=
  match ops with
  | [] => w
  | o :: ops' => run ops' (step o w)
  end.

Fixpoint admissible (ops : list pool_op) (w : World) : Prop :=
  match ops with
  | [] => True
  | o :: ops' => precondition o w ∧ admissible ops' (step o w)
  end.

(** The pool at rest. *)
Definition at_rest (w : World) : Prop :=
  let p := self w in
  ConnectionPool._conns_created p
  = (Z.of_nat (size (ConnectionPool._conns_inuse p))
     + Z.of_nat (length (ConnectionPool._conns_available p)))%Z.

(** The bound on the counter, now and at every earlier write to it. *)
Definition bounded (w : World) : Prop :=
  let p := self w in
  (ConnectionPool._conns_created p ≤ ConnectionPool.max_conn p)%Z
  ∧ Forall (λ n, (n ≤ ConnectionPool.max_conn p)%Z) (created_history (trace w)).

(** The invariant that carries both through every operation. *)
Definition pool_inv (mc : Z) (w : World) : Prop :=
  let p := self w in
  at_rest w ∧ bounded w
  ∧ (0 < ConnectionPool.max_conn p)%Z
  ∧ NoDup (ConnectionPool._conns_available p)
  ∧ (∀ c, c ∈ ConnectionPool._conns_available p → c ∉ ConnectionPool._conns_inuse p)
  ∧ (∀ c, c ∈ ConnectionPool._conns_inuse p ∨ c ∈ ConnectionPool._conns_available p
          → c < next_ref w)%nat
  ∧ ConnectionPool.max_conn p = mc.

(** A computation that leaves the pool object alone. *)
Definition pool_frame (w w' : World) : Prop :=
  self w' = self w ∧ getpid w' = getpid w ∧ (next_ref w ≤ next_ref w')%nat
  ∧ created_history (trace w') = created_history (trace w).

(** The [try] block of the loop in [make_conn]. *)
Definition one_try : M ref :=
  p ← gets self;
  conn_instance ← Conn.__init__ (ConnectionPool.conn_kwargs p).1
                                (ConnectionPool.conn_kwargs p).2;
  Conn.connect conn_instance;;
  p ← gets self;
  set_created (ConnectionPool._conns_created p + 1);;
  ret conn_instance.

(** *** A concrete pool *)

Definition tracker_kwargs : list (string * Z) * Z :=
  ([("192.168.0.10", 22122%Z); ("192.168.0.11", 22122%Z)], 30%Z).

Definition up (i : nat) : attempt := {| pick := i; reachable := true |}.
Definition down (i : nat) : attempt := {| pick := i; reachable := false |}.

(** A tracker pool of at most two connections in process 100. *)
Definition tracker_pool (net : list attempt) : World :=
  new_pool "Tracker Pool" (Some 2%Z) false tracker_kwargs (boot 100 net []).

(** Two connections are opened, one is released and taken again, one is
    removed; the process forks and the child goes on with the pool. *)
Definition pool_ops_example : list pool_op :=
  [Get_connection; Get_connection; Release 0; Get_connection; Remove 1;
   Fork 101; Release 0; Get_connection; Remove 2].

(** [_conns_created] of the pool of a world. *)
Definition created (w : World) : Z := ConnectionPool._conns_created (self w).

(** A process holding one Connection object, number 0, not yet connected. *)
Definition one_connection (net : list attempt) : World :=
  (Conn.__init__ tracker_kwargs.1 tracker_kwargs.2 (boot 100 net [])).2.

(** [self._conns_inuse.add(conn)]. *)
Definition add_inuse (conn : ref) : M unit :=
  update_self (λ p, ConnectionPool.with_inuse ({[conn]} ∪ ConnectionPool._conns_inuse p) p).

(** A pool holding one idle connection, number 0. *)
Definition pool_with_idle : World :=
  run [Get_connection; Release 0] (tracker_pool [up 0]).

(** *** Reading from a socket *)

(** The reading of C8: a call either returns exactly the number of bytes
    asked for, or raises. *)
Definition returns_all_or_raises (incoming : list recv_event) (n buffer_size : Z) : Prop :=
  match tcp_recv_response incoming n buffer_size with
  | Returns (_, total_size) => total_size = n
  | Raises _ => True
  | Loops => False
  end.

(** A socket error with an error number and a message, and a timeout,
    whose only argument is its message. *)
Definition econnreset : list pyarg := [ArgInt 104; ArgStr "Connection reset by peer"].
Definition timed_out : list pyarg := [ArgStr "timed out"].

Definition hello : list Byte.byte := [Byte.x68; Byte.x65; Byte.x6c; Byte.x6c; Byte.x6f].

(** ** Calls on the facade *)

(** The operations of the facade that take a remote file id, a local
    file name or a buffer. *)
Inductive operation : Type :=
| Upload_by_filename (filename : string) (meta_dict : meta)
| Upload_by_file (filename : string) (meta_dict : meta)
| Upload_by_buffer (filebuffer : buffer) (file_ext_name : option string) (meta_dict : meta)
| Upload_slave_by_filename (filename remote_file_id prefix_name : string) (meta_dict : meta)
| Upload_slave_by_file (filename remote_file_id prefix_name : string) (meta_dict : meta)
| Upload_slave_by_buffer (filebuffer : buffer) (remote_file_id : string)
    (meta_dict : meta) (file_ext_name : option string)
| Upload_appender_by_filename (local_filename : string) (meta_dict : meta)
| Upload_appender_by_file (local_filename : string) (meta_dict : meta)
| Upload_appender_by_buffer (filebuffer : buffer) (file_ext_name : option string)
    (meta_dict : meta)
| Delete_file (remote_file_id : string)
| Download_to_file (local_filename remote_file_id : string) (offset down_bytes : Z)
| Download_to_buffer (remote_file_id : string) (offset down_bytes : Z)
| Get_meta_data (remote_file_id : string)
| Set_meta_data (remote_file_id : string) (meta_dict : meta) (op_flag : string)
| Append_by_filename (local_filename remote_fileid : string)
| Append_by_file (local_filename remote_fileid : string)
| Append_by_buffer (file_buffer : buffer) (remote_fileid : string)
| Truncate_file (truncated_filesize : Z) (appender_fileid : string)
| Modify_by_filename (filename appender_fileid : string) (offset : Z)
| Modify_by_file (filename appender_fileid : string) (offset : Z)
| Modify_by_buffer (filebuffer : buffer) (appender_fileid : string) (offset : Z).

Definition perform (env : Env) (op : operation) : F dict :=
  match op with
  | Upload_by_filename f m => Facade.upload_by_filename env f m
  | Upload_by_file f m => Facade.upload_by_file env f m
  | Upload_by_buffer b e m => Facade.upload_by_buffer env b e m
  | Upload_slave_by_filename f r p m => Facade.upload_slave_by_filename env f r p m
  | Upload_slave_by_file f r p m => Facade.upload_slave_by_file env f r p m
  | Upload_slave_by_buffer b r m e => Facade.upload_slave_by_buffer env b r m e
  | Upload_appender_by_filename f m => Facade.upload_appender_by_filename env f m
  | Upload_appender_by_file f m => Facade.upload_appender_by_file env f m
  | Upload_appender_by_buffer b e m => Facade.upload_appender_by_buffer env b e m
  | Delete_file r => Facade.delete_file env r
  | Download_to_file f r o d => Facade.download_to_file env f r o d
  | Download_to_buffer r o d => Facade.download_to_buffer env r o d
  | Get_meta_data r => Facade.get_meta_data env r
  | Set_meta_data r m o => Facade.set_meta_data env r m o
  | Append_by_filename f r => Facade.append_by_filename env f r
  | Append_by_file f r => Facade.append_by_file env f r
  | Append_by_buffer b r => Facade.append_by_buffer env b r
  | Truncate_file n r => Facade.truncate_file env n r
  | Modify_by_filename f r o => Facade.modify_by_filename env f r o
  | Modify_by_file f r o => Facade.modify_by_file env f r o
  | Modify_by_buffer b r o => Facade.modify_by_buffer env b r o
  end.

Definition no_file (env : Env) (filename : string) : bool :=
  negb (fdfs_check_file env filename).1.
Definition bad_id (remote_file_id : string) : bool :=
  match split_remote_fileid remote_file_id with
  | None => true
  | Some _ => false
  end.
Definition no_buffer (b : buffer) : bool := negb (buffer_true b).

(** The local input of an operation is invalid: the local file does not
    exist, the buffer is empty, or the remote file id does not parse. *)
Definition invalid_input (env : Env) (op : operation) : bool :=
  match op with
  | Upload_by_filename f _ | Upload_by_file f _
  | Upload_appender_by_filename f _ | Upload_appender_by_file f _ => no_file env f
  | Upload_by_buffer b _ _ | Upload_appender_by_buffer b _ _ => no_buffer b
  | Upload_slave_by_filename f r _ _ | Upload_slave_by_file f r _ _
  | Append_by_filename f r | Append_by_file f r
  | Modify_by_filename f r _ | Modify_by_file f r _ => no_file env f || bad_id r
  | Upload_slave_by_buffer b r _ _ | Append_by_buffer b r
  | Modify_by_buffer b r _ => no_buffer b || bad_id r
  | Delete_file r | Download_to_file _ r _ _ | Download_to_buffer r _ _
  | Get_meta_data r | Set_meta_data r _ _ | Truncate_file _ r => bad_id r
  end.

(** [modify_by_filename] or [modify_by_file] on a local file that exists. *)
Definition modifies_existing_file (env : Env) (op : operation) : bool :=
  match op with
  | Modify_by_filename f _ _ | Modify_by_file f _ _ => negb (no_file env f)
  | _ => false
  end.

(** *** A concrete client *)

(** [/etc/hosts] is the one local file; the tracker always resolves to
    the same storage node, which answers uploads and the like with an
    empty record and [set_metadata] with status 2. *)
Definition storage_node : Storage_server :=
  {| ip_addr := "192.168.0.20"; port := 23000; store_path_index := 0 |}.

Definition demo_env : Env :=
  {| fdfs_check_file := λ f,
       if String.eqb f "/etc/hosts" then (true, EmptyString)
       else (false, "[-] Error: " +:+ f +:+ " is not a file.");
     tracker := λ _ _, Ok storage_node;
     storage := λ _ _ _, Ok ∅;
     storage_set_metadata := λ _ _ _ _ _, Ok 2%Z |}.

(** A client right after [__init__], with the timeout of its configuration. *)
Definition new_client : Fdfs_client :=
  {| timeout := 30; storages := ∅; objects := ∅; next_object := 0; calls := [] |}.

Definition file_id : string := "group1/M00/00/00/wKgAFF.txt".

(** The storage requests among the calls made. *)
Definition storage_requests (l : list call) : list (ref * storage_request) :=
  omap (λ c, match c with StorageCall store req => Some (store, req) | _ => None end) l.

(** ** Further notions for the pool *)

(** A connection the pool holds, in use or idle. *)
Definition pooled (w : World) (c : ref) : Prop :=
  c ∈ ConnectionPool._conns_inuse (self w)
  ∨ c ∈ ConnectionPool._conns_available (self w).

(** The Connection object [c] has no socket. *)
Definition closed (w : World) (c : ref) : Prop :=
  ∃ o, heap w !! c = Some o ∧ Connection.sock o = None.

(** The Connection object [c] has a socket and was made in this process. *)
Definition connected (w : World) (c : ref) : Prop :=
  ∃ o s, heap w !! c = Some o ∧ Connection.sock o = Some s
         ∧ Connection.pid o = getpid w.

Definition is_fork (o : pool_op) : bool :=
  match o with
  | Fork _ => true
  | _ => false
  end.

(** A tracker pool with connection 0 in use. *)
Definition pool_in_use : World := run [Get_connection] (tracker_pool [up 0]).

(** A tracker pool of capacity 2 with connections 0 and 1 in use; the
    network then accepts one more connection. *)
Definition pool_full : World :=
  run [Get_connection; Get_connection] (tracker_pool [up 0; up 1; up 0]).

(** Every [sock.close()] still to come succeeds. *)
Definition closes_ok (w : World) : Prop := ∀ b, b ∈ closing w → b = true.

(** The connections of the pool are objects of the heap. *)
Definition pool_on_heap (w : World) : Prop :=
  ∀ c, pooled w c → is_Some (heap w !! c).

(** A pool with connection 1 in use and connection 0 idle, seen from the
    child after a fork. *)
Definition pool_forked : World :=
  run [Get_connection; Get_connection; Release 0; Fork 101]
    (tracker_pool [up 0; up 1; up 0]).

(** The pool as [_check_pid] rebuilds it in process [q]. *)
Definition restarted (p : ConnectionPool.t) (q : Z) : ConnectionPool.t :=
  {| ConnectionPool.pool_name := ConnectionPool.pool_name p;
     ConnectionPool.pid := q;
     ConnectionPool.max_conn :=
       (if (ConnectionPool.max_conn p =? 0)%Z then (2 ^ 31)%Z
        else ConnectionPool.max_conn p);
     ConnectionPool.conn_kwargs := ConnectionPool.conn_kwargs p;
     ConnectionPool._conns_created := 0;
     ConnectionPool._conns_available := [];
     ConnectionPool._conns_inuse := ∅;
     ConnectionPool.debug := false |}.

(** A pool whose connections have no endpoint to choose from. *)
Definition pool_without_hosts : World :=
  new_pool "Tracker Pool" (Some 2%Z) false ([], 30%Z) (boot 100 [up 0; up 0; up 0] []).

(** One connected Connection object, number 0, whose [close] will fail. *)
Definition stuck_connection : World :=
  (Conn.connect 0
     (Conn.__init__ tracker_kwargs.1 tracker_kwargs.2 (boot 100 [up 1] [false])).2).2.

(** What holds of a pool used in one process only: it belongs to the
    process, and each of its connections is a connected object made
    there. *)
Definition all_connected (w : World) : Prop :=
  ConnectionPool.pid (self w) = getpid w
  ∧ ∀ c, pooled w c → connected w c ∧ (c < next_ref w)%nat.

(** Two connections are opened, one is released, taken again and
    removed, and a third one cannot be had: the network is down. *)
Definition busy_ops : list pool_op :=
  [Get_connection; Get_connection; Release 1; Get_connection; Remove 1; Get_connection].

(** ** Further notions for the facade *)



(** What the caller gets of the answer of the storage node: the two
    slave uploads by file put their own status into the record, the other
    operations pass the answer on as it is. *)
Definition relayed (op : operation) (answer : result dict) : result dict :=
  match op with
  | Upload_slave_by_filename _ _ _ _ | Upload_slave_by_file _ _ _ _ =>
      match answer with
      | Ok ret_dict => Ok (<["Status" := VStr "Upload slave file successed."]> ret_dict)
      | Raise e => Raise e
      end
  | _ => answer
  end.

(** What the caller of [set_meta_data] gets of the answer of the storage
    node, which is a status: a record of its own for status 0, and for
    any other status the [NameError] of [os.strerror], [os] not being
    imported in client.py. *)
Definition status_relayed (store_serv : Storage_server) (answer : result Z) : result dict :=
  match answer with
  | Ok status =>
      if (status =? 0)%Z
      then Ok (<["Status" := VStr "Set meta data success."]>
                 (<["Storage IP" := VStr (ip_addr store_serv)]> ∅))
      else Raise (NameError "os")
  | Raise e => Raise e
  end.

(** The operations that take their Storage_client from [get_storage]. *)
Definition uses_get_storage (op : operation) : bool :=
  match op with
  | Upload_by_filename _ _ | Upload_by_file _ _ | Upload_by_buffer _ _ _
  | Upload_slave_by_filename _ _ _ _ | Upload_slave_by_file _ _ _ _
  | Upload_slave_by_buffer _ _ _ _
  | Upload_appender_by_filename _ _ | Upload_appender_by_file _ _
  | Upload_appender_by_buffer _ _ _ | Delete_file _ => true
  | _ => false
  end.

(** The Storage_client object a call is made on. *)
Definition call_store (c : call) : option ref :=
  match c with
  | TrackerCall _ => None
  | StorageCall store _ => Some store
  | SetMetadataCall store _ _ _ => Some store
  end.

(** Every entry of [self.storages] names an object that exists and was
    built for the endpoint it is filed under. *)
Definition cache_ok (s : Fdfs_client) : Prop :=
  ∀ ip p store, storages s !! (ip, p) = Some store →
    (store < next_object s)%nat
    ∧ ∃ t, objects s !! store
           = Some {| sc_ip_addr := ip; sc_port := p; sc_timeout := t |}.

Fixpoint perform_all (env : Env) (ops : list operation) (s : Fdfs_client) : Fdfs_client :=
  match ops with
  | [] => s
  | op :: ops' => perform_all env ops' (perform env op s).2
  end.

(** A client right after [__init__] with the given timeout. *)
Definition client (t : Z) : Fdfs_client :=
  {| timeout := t; storages := ∅; objects := ∅; next_object := 0; calls := [] |}.

(** A client whose tracker answers every query with status 2, and whose
    storage node refuses what it is asked with status 22. *)
Definition failing_env : Env :=
  {| fdfs_check_file := fdfs_check_file demo_env;
     tracker := λ _ _, Raise (ResponseError "[-] Error: 2");
     storage := λ _ _ _, Raise (DataError "[-] Error: 22");
     storage_set_metadata := λ _ _ _ _ _, Ok 0%Z |}.

(** The tracker answers; the storage node refuses with status 22. *)
Definition refusing_env : Env :=
  {| fdfs_check_file := fdfs_check_file demo_env;
     tracker := tracker demo_env;
     storage := λ _ _ _, Raise (DataError "[-] Error: 22");
     storage_set_metadata := λ _ _ _ _ _, Ok 0%Z |}.

(** * Properties of the connection pool *)

#[local] Set Warnings "-clear-no-such-hyp".

Ltac unfold_M :=
  unfold mbind, mret, ST_bind, ST_ret, bind, ret, raise, gets, modify,
    try_except, deref, assign, alloc, update_self, set_created,
    next_attempt, next_close in *.

Lemma created_history_app tr1 tr2 :
  created_history (tr1 ++ tr2) = created_history tr1 ++ created_history tr2.
Proof. unfold created_history. apply omap_app. Qed.

Lemma connects_app tr1 tr2 : connects (tr1 ++ tr2) = connects tr1 ++ connects tr2.
Proof. unfold connects. apply omap_app. Qed.

Lemma pool_frame_refl w : pool_frame w w.
Proof. repeat split; auto. Qed.

Lemma pool_frame_trans w1 w2 w3 :
  pool_frame w1 w2 → pool_frame w2 w3 → pool_frame w1 w3.
Proof.
  intros (Hs & Hp & Hn & Hh) (Hs' & Hp' & Hn' & Hh').
  repeat split; try congruence. lia.
Qed.

Lemma pop_nil {A} (l : list A) : pop l = None ↔ l = [].
Proof.
  unfold pop. destruct l as [|x l] using rev_ind; [done|].
  rewrite rev_app_distr. simpl. split; [done|]. intros H.
  by destruct l.
Qed.

Lemma pop_snoc {A} (l : list A) x : pop (l ++ [x]) = Some (l, x).
Proof. unfold pop. rewrite rev_app_distr. simpl. by rewrite rev_involutive. Qed.

Lemma pop_Some {A} (l r : list A) x : pop l = Some (r, x) → l = r ++ [x].
Proof.
  destruct l as [|y l _] using rev_ind.
  - done.
  - rewrite pop_snoc. by intros [= -> ->].
Qed.

Lemma disconnect_frame c w : pool_frame w (Conn.disconnect c w).2.
Proof.
  unfold Conn.disconnect, Conn._errormessage. unfold_M.
  destruct (heap w !! c) as [o|] eqn:Hc; simpl; [|apply pool_frame_refl].
  destruct (Connection.sock o); simpl; [|apply pool_frame_refl].
  destruct (closing w) as [|[] cl]; simpl.
  - repeat split; simpl; auto. by rewrite created_history_app, app_nil_r.
  - repeat split; simpl; auto. by rewrite created_history_app, app_nil_r.
  - rewrite Hc. simpl.
    repeat split; simpl; auto. by rewrite created_history_app, app_nil_r.
Qed.

Lemma for_each_frame {A} (body : A → M unit) (l : list A) :
  (∀ x w, pool_frame w (body x w).2) →
  ∀ w, pool_frame w (for_each l body w).2.
Proof.
  intros Hbody. induction l as [|x l IH]; intros w; simpl.
  - apply pool_frame_refl.
  - unfold_M. specialize (Hbody x w).
    destruct (body x w) as [[[]|e] w1]; simpl in *; [|done].
    eapply pool_frame_trans; [done|apply IH].
Qed.

Lemma destroy_frame w : pool_frame w (Pool.destroy w).2.
Proof.
  unfold Pool.destroy. unfold_M.
  apply for_each_frame. apply disconnect_frame.
Qed.

(** [_check_pid] in the process that owns the pool does nothing. *)
Lemma check_pid_same w :
  ConnectionPool.pid (self w) = getpid w → Pool._check_pid w = (Ok tt, w).
Proof.
  intros H. unfold Pool._check_pid. unfold_M.
  by rewrite decide_True.
Qed.

(** After a fork it either fails while closing, leaving the pool as it
    was, or starts the pool afresh. *)
Lemma check_pid_cases w :
  let r := Pool._check_pid w in
  (r.1 = Ok tt ∧ r.2 = w)
  ∨ ((∃ e, r.1 = Raise e) ∧ pool_frame w r.2)
  ∨ (r.1 = Ok tt ∧ ∃ w1, pool_frame w w1 ∧
       r.2 = log (EvCreated 0) (set_self
         {| ConnectionPool.pool_name := ConnectionPool.pool_name (self w);
            ConnectionPool.pid := getpid w;
            ConnectionPool.max_conn :=
              (if (ConnectionPool.max_conn (self w) =? 0)%Z then (2 ^ 31)%Z
               else ConnectionPool.max_conn (self w));
            ConnectionPool.conn_kwargs := ConnectionPool.conn_kwargs (self w);
            ConnectionPool._conns_created := 0;
            ConnectionPool._conns_available := [];
            ConnectionPool._conns_inuse := ∅;
            ConnectionPool.debug := false |} w1)).
Proof.
  unfold Pool._check_pid. unfold_M. simpl.
  destruct (decide (ConnectionPool.pid (self w) = getpid w)) as [Hpid|Hpid].
  - left. done.
  - right. pose proof (destroy_frame w) as Hf.
    destruct (Pool.destroy w) as [[[]|e] w1]; simpl in *.
    + right. split; [done|]. exists w1. split; [done|].
      unfold Pool.__init__. unfold_M. simpl.
      destruct Hf as (_ & -> & _). done.
    + left. split; [by exists e|done].
Qed.

Lemma make_conn_loop_S n :
  Pool.make_conn_loop (S n)
  = try_except one_try
      (λ e, if is_ConnectionError e then Some (Pool.make_conn_loop n) else None).
Proof. reflexivity. Qed.

Lemma bind_Ok {S A B} (m : ST S A) (k : A → ST S B) s a s1 :
  m s = (Ok a, s1) → (m ≫= k) s = k a s1.
Proof. intros H. unfold mbind, ST_bind, bind. by rewrite H. Qed.

Lemma bind_Raise {S A B} (m : ST S A) (k : A → ST S B) s e s1 :
  m s = (Raise e, s1) → (m ≫= k) s = (Raise e, s1).
Proof. intros H. unfold mbind, ST_bind, bind. by rewrite H. Qed.

Lemma next_attempt_Ok w : ∃ a w1,
  next_attempt w = (Ok a, w1) ∧ self w1 = self w ∧ getpid w1 = getpid w
  ∧ heap w1 = heap w ∧ next_ref w1 = next_ref w ∧ trace w1 = trace w
  ∧ closing w1 = closing w
  ∧ (network w = a :: network w1 ∨ network w = [] ∧ w1 = w ∧ reachable a = false).
Proof.
  unfold next_attempt. destruct (network w) as [|a net] eqn:Hn.
  - eexists _, w. repeat split; auto.
  - eexists a, _. repeat split; auto.
Qed.

Lemma _connect_run c o w a w1 :
  heap w !! c = Some o → next_attempt w = (Ok a, w1) → heap w1 = heap w →
  Conn._connect c w =
    match Connection.host_tuple o
          !! (pick a mod length (Connection.host_tuple o))%nat with
    | None => (Raise IndexError, w1)
    | Some (addr, port) =>
        (if reachable a then Ok {| peer_addr := addr; peer_port := port |}
         else Raise SocketError,
         log (EvConnect addr port (reachable a))
           (set_heap (<[c := Connection.with_remote addr port o]> (heap w1)) w1))
    end.
Proof.
  intros Hc Ha Hh. unfold Conn._connect.
  rewrite (bind_Ok _ _ w o w); [|by unfold deref; rewrite Hc].
  rewrite (bind_Ok _ _ w a w1 Ha).
  destruct (Connection.host_tuple o !! _) as [[addr port]|]; [|done].
  unfold assign, modify, mbind, ST_bind, bind.
  by destruct (reachable a).
Qed.

Lemma connect_connected c o w :
  heap w !! c = Some o → is_Some (Connection.sock o) → Conn.connect c w = (Ok tt, w).
Proof.
  intros Hc [s Hs]. unfold Conn.connect.
  rewrite (bind_Ok _ _ w o w); [|by unfold deref; rewrite Hc].
  by rewrite Hs.
Qed.

Lemma connect_run c o w a w1 :
  heap w !! c = Some o → Connection.sock o = None →
  next_attempt w = (Ok a, w1) → heap w1 = heap w →
  Conn.connect c w =
    match Connection.host_tuple o
          !! (pick a mod length (Connection.host_tuple o))%nat with
    | None => (Raise IndexError, w1)
    | Some (addr, port) =>
        let o1 := Connection.with_remote addr port o in
        let w2 := log (EvConnect addr port (reachable a))
                    (set_heap (<[c := o1]> (heap w1)) w1) in
        if reachable a
        then (Ok tt,
              set_heap (<[c := Connection.with_sock
                                 (Some {| peer_addr := addr; peer_port := port |}) o1]>
                          (heap w2)) w2)
        else (Raise (ConnectionError (ErrorMessage (Some addr) (Some port))), w2)
    end.
Proof.
  intros Hc Hs Ha Hh. unfold Conn.connect.
  rewrite (bind_Ok _ _ w o w); [|by unfold deref; rewrite Hc].
  rewrite Hs.
  unfold mbind at 1, ST_bind, bind, try_except.
  rewrite (_connect_run c o w a w1 Hc Ha Hh).
  destruct (Connection.host_tuple o !! _) as [[addr port]|]; [|done].
  destruct (reachable a); simpl.
  - unfold deref, assign, modify, mbind, ST_bind, bind. simpl.
    rewrite lookup_insert_eq. done.
  - unfold Conn._errormessage, deref, mbind, ST_bind, bind, raise, ret. simpl.
    rewrite lookup_insert_eq. done.
Qed.
(** One try either connects the new object and counts it, or fails in
    [socket.create_connection], or has no endpoint to choose from. *)
Lemma one_try_cases w :
  let r := one_try w in
  let p := self w in
  getpid r.2 = getpid w ∧ next_ref r.2 = S (next_ref w) ∧
  ((∃ addr port o,
      r.1 = Ok (next_ref w)
      ∧ self r.2 = ConnectionPool.with_created (ConnectionPool._conns_created p + 1) p
      ∧ trace r.2 = trace w ++ [EvConnect addr port true;
                                EvCreated (ConnectionPool._conns_created p + 1)]
      ∧ heap r.2 !! next_ref w = Some o
      ∧ Connection.sock o = Some {| peer_addr := addr; peer_port := port |})
   ∨ (∃ addr port,
      r.1 = Raise (ConnectionError (ErrorMessage (Some addr) (Some port)))
      ∧ self r.2 = p
      ∧ trace r.2 = trace w ++ [EvConnect addr port false])
   ∨ (r.1 = Raise IndexError ∧ self r.2 = p ∧ trace r.2 = trace w)).
Proof.
  unfold one_try.
  rewrite (bind_Ok _ _ w (self w) w) by done.
  erewrite bind_Ok by reflexivity.
  set (o := {| Connection.pid := getpid w |}).
  set (w0 := set_next_ref _ _).
  destruct (next_attempt_Ok w0) as (a & w1 & Ha & Hself & Hpid & Hheap & Hnext & Htr & _).
  assert (Hc : heap w0 !! next_ref w = Some o) by apply lookup_insert_eq.
  pose proof (connect_run (next_ref w) o w0 a w1 Hc eq_refl Ha Hheap) as Hrun.
  destruct (Connection.host_tuple o !! _) as [[addr port]|].
  - simpl in Hrun. destruct (reachable a).
    + erewrite bind_Ok by apply Hrun.
      unfold_M. simpl. rewrite Hpid, Hnext, Hself, Htr. simpl.
      split; [done|]. split; [done|]. left.
      eexists addr, port, _. rewrite lookup_insert_eq.
      rewrite <- (assoc_L (++)). done.
    + erewrite bind_Raise by apply Hrun.
      simpl. rewrite Hpid, Hnext, Hself, Htr. simpl.
      split; [done|]. split; [done|]. right. left. by exists addr, port.
  - erewrite bind_Raise by apply Hrun.
    simpl. rewrite Hpid, Hnext, Hself, Htr. simpl.
    split; [done|]. split; [done|]. right. right. done.
Qed.
(** The retry loop: which attempts it makes and what it leaves behind. *)
Lemma make_conn_loop_cases n w :
  let r := Pool.make_conn_loop n w in
  let p := self w in
  getpid r.2 = getpid w ∧ (next_ref w ≤ next_ref r.2)%nat ∧
  ∃ evs, trace r.2 = trace w ++ evs ∧
  ((∃ c o s k,
      r.1 = Ok c ∧ (next_ref w ≤ c < next_ref r.2)%nat
      ∧ self r.2 = ConnectionPool.with_created (ConnectionPool._conns_created p + 1) p
      ∧ heap r.2 !! c = Some o ∧ Connection.sock o = Some s
      ∧ (k < n)%nat ∧ connects evs = replicate k false ++ [true]
      ∧ created_history evs = [(ConnectionPool._conns_created p + 1)%Z])
   ∨ (r.1 = Raise (ConnectionError FailAfter3Times) ∧ self r.2 = p
      ∧ connects evs = replicate n false ∧ created_history evs = [])
   ∨ (∃ k, r.1 = Raise IndexError ∧ self r.2 = p
      ∧ (k < n)%nat ∧ connects evs = replicate k false ∧ created_history evs = [])).
Proof.
  revert w. induction n as [|n IH]; intros w.
  - simpl. split; [done|]. split; [done|]. exists []. rewrite app_nil_r.
    split; [done|]. right. left. done.
  - rewrite make_conn_loop_S. unfold try_except.
    destruct (one_try_cases w) as (Hpid & Hnext & Hcases).
    destruct (one_try w) as [r w1]. simpl in Hpid, Hnext, Hcases.
    destruct Hcases as [(addr & port & o & -> & Hself & Htr & Hc & Hs)
                       |[(addr & port & -> & Hself & Htr)|(-> & Hself & Htr)]]; simpl.
    + split; [done|]. split; [lia|]. eexists. split; [exact Htr|].
      left. exists (next_ref w), o, {| peer_addr := addr; peer_port := port |}, 0%nat.
      repeat split; auto; lia.
    + specialize (IH w1). simpl in IH.
      destruct IH as (Hpid' & Hnext' & evs & Htr' & IH).
      split; [congruence|]. split; [lia|].
      exists (EvConnect addr port false :: evs).
      split; [rewrite Htr', Htr, <- (assoc_L (++)); done|].
      rewrite Hself in IH.
      destruct IH as [(c & o & s & k & Hr & Hrange & Hself' & Hc & Hs & Hk & Hcon & Hhist)
                     |[(Hr & Hself' & Hcon & Hhist)|(k & Hr & Hself' & Hk & Hcon & Hhist)]].
      * left. exists c, o, s, (S k). simpl.
        repeat split; auto; try lia. by rewrite Hcon.
      * right. left. simpl. repeat split; auto. by rewrite Hcon.
      * right. right. exists (S k). simpl. repeat split; auto; try lia. by rewrite Hcon.
    + split; [done|]. split; [lia|]. exists []. rewrite app_nil_r.
      split; [done|]. right. right. exists 0%nat. repeat split; auto. lia.
Qed.
Lemma bind_inv {A B} (P : World → Prop) (m : M A) (k : A → M B) w :
  P (m w).2 → (∀ a w', P w' → P (k a w').2) → P ((m ≫= k) w).2.
Proof.
  intros Hm Hk. unfold mbind, ST_bind, bind.
  destruct (m w) as [[a|e] w1]; simpl in *; auto.
Qed.

Lemma pool_inv_frame mc w w' : pool_inv mc w → pool_frame w w' → pool_inv mc w'.
Proof.
  intros (Hrest & [Hle Hhist] & Hmax & Hnd & Hdisj & Hfresh & Hmc) (Hs & Hp & Hn & Hh).
  unfold pool_inv, at_rest, bounded. rewrite Hs, Hh.
  repeat split; auto.
  intros c Hc. specialize (Hfresh c Hc). lia.
Qed.

(** A pool started afresh by [__init__] satisfies the invariant. *)
Lemma pool_inv_init name pid mc kw dbg w1 :
  (0 < mc)%Z →
  Forall (λ n, (n ≤ mc)%Z) (created_history (trace w1)) →
  pool_inv mc (log (EvCreated 0) (set_self
    {| ConnectionPool.pool_name := name; ConnectionPool.pid := pid;
       ConnectionPool.max_conn := mc; ConnectionPool.conn_kwargs := kw;
       ConnectionPool._conns_created := 0; ConnectionPool._conns_available := [];
       ConnectionPool._conns_inuse := ∅; ConnectionPool.debug := dbg |} w1)).
Proof.
  intros Hmc Hhist. unfold pool_inv, at_rest, bounded. simpl.
  rewrite created_history_app. simpl.
  repeat split; auto; try lia.
  - apply Forall_app. split; [done|]. repeat constructor. lia.
  - constructor.
  - intros c Hc%elem_of_nil. done.
  - intros c [Hc|Hc%elem_of_nil]; [set_solver|done].
Qed.

Lemma check_pid_inv mc w : pool_inv mc w → pool_inv mc (Pool._check_pid w).2.
Proof.
  intros Hinv.
  destruct (check_pid_cases w) as [[_ ->]|[[_ Hf]|[_ (w1 & Hf & ->)]]]; auto.
  - by apply pool_inv_frame with w.
  - pose proof (pool_inv_frame mc w w1 Hinv Hf) as Hinv1.
    destruct Hinv as (_ & [_ Hhist] & Hmax & _ & _ & _ & Hmc).
    destruct Hf as (_ & _ & _ & Hh).
    rewrite (proj2 (Z.eqb_neq _ 0)) by lia.
    rewrite Hmc in *.
    apply pool_inv_init; [done|]. by rewrite Hh.
Qed.

Lemma remove_first_notin x l : x ∉ l → remove_first x l = l.
Proof.
  induction l as [|y l IH]; simpl; [done|].
  intros Hx. apply not_elem_of_cons in Hx as [Hxy Hx].
  rewrite decide_False by done. by rewrite IH.
Qed.

Lemma remove_first_length x l :
  x ∈ l → S (length (remove_first x l)) = length l.
Proof.
  induction l as [|y l IH]; simpl.
  - intros H%elem_of_nil. done.
  - intros H. destruct (decide (x = y)) as [->|Hne]; [done|].
    apply elem_of_cons in H as [H|H]; [done|]. simpl. by rewrite IH.
Qed.

Lemma remove_first_elem x y l : y ∈ remove_first x l → y ∈ l.
Proof.
  induction l as [|z l IH]; simpl; [done|].
  destruct (decide (x = z)) as [->|Hne].
  - intros H. apply elem_of_cons. by right.
  - intros H. apply elem_of_cons in H as [->|H].
    + apply elem_of_cons. by left.
    + apply elem_of_cons. right. by apply IH.
Qed.

Lemma remove_first_NoDup x l : NoDup l → NoDup (remove_first x l).
Proof.
  induction 1 as [|z l Hz Hnd IH]; simpl; [constructor|].
  destruct (decide (x = z)); [done|].
  constructor; [|done]. intros H. apply Hz. by eapply remove_first_elem.
Qed.

Lemma size_remove (X : gset ref) c : c ∈ X → S (size (X ∖ {[c]})) = size X.
Proof.
  intros Hc. rewrite size_difference by set_solver.
  rewrite size_singleton.
  assert (size X ≠ 0%nat); [|lia].
  intros H0. apply size_empty_inv in H0. set_solver.
Qed.

Lemma size_add (X : gset ref) c : c ∉ X → size ({[c]} ∪ X) = S (size X).
Proof.
  intros Hc. rewrite size_union by set_solver. by rewrite size_singleton.
Qed.

Lemma remove_inv mc conn w : pool_inv mc w → pool_inv mc (Pool.remove conn w).2.
Proof.
  intros (Hrest & [Hle Hhist] & Hmax & Hnd & Hdisj & Hfresh & Hmc).
  unfold at_rest in Hrest.
  unfold Pool.remove. unfold_M. simpl.
  destruct (decide (conn ∈ ConnectionPool._conns_inuse (self w))) as [Hin|Hin]; simpl.
  - rewrite decide_False by (intros H; by apply (Hdisj conn)).
    simpl. pose proof (size_remove _ _ Hin) as Hsz.
    unfold pool_inv, at_rest, bounded. simpl.
    rewrite created_history_app. simpl.
    repeat split; auto; try lia.
    + apply Forall_app. split; [done|]. repeat constructor. lia.
    + intros c Hc. specialize (Hdisj c Hc). set_solver.
    + intros c [Hc|Hc]; apply Hfresh; [left; set_solver|by right].
  - destruct (decide (conn ∈ ConnectionPool._conns_available (self w))) as [Hav|Hav]; simpl.
    + pose proof (remove_first_length _ _ Hav) as Hlen.
      unfold pool_inv, at_rest, bounded. simpl.
      rewrite created_history_app. simpl.
      repeat split; auto; try lia.
      * apply Forall_app. split; [done|]. repeat constructor. lia.
      * by apply remove_first_NoDup.
      * intros c Hc. apply Hdisj. by eapply remove_first_elem.
      * intros c [Hc|Hc]; apply Hfresh; [by left|right; by eapply remove_first_elem].
    + unfold pool_inv, at_rest, bounded. repeat split; auto.
Qed.

Lemma release_inv mc conn w : pool_inv mc w → pool_inv mc (Pool.release conn w).2.
Proof.
  intros Hinv. unfold Pool.release.
  apply bind_inv; [by apply check_pid_inv|].
  clear w Hinv. intros _ w (Hrest & [Hle Hhist] & Hmax & Hnd & Hdisj & Hfresh & Hmc).
  unfold at_rest in Hrest. unfold_M. simpl.
  destruct (heap w !! conn) as [o|]; simpl;
    [|unfold pool_inv, at_rest, bounded; repeat split; auto].
  destruct (decide (Connection.pid o = ConnectionPool.pid (self w))); simpl;
    [|unfold pool_inv, at_rest, bounded; repeat split; auto].
  destruct (decide (conn ∈ ConnectionPool._conns_inuse (self w))) as [Hin|Hin]; simpl;
    [|unfold pool_inv, at_rest, bounded; repeat split; auto].
  pose proof (size_remove _ _ Hin) as Hsz.
  unfold pool_inv, at_rest, bounded. simpl. rewrite length_app. simpl.
  repeat split; auto; try lia.
  - apply NoDup_app. split; [done|]. split; [|apply NoDup_singleton].
    intros c Hc Hc'. apply list_elem_of_singleton in Hc' as ->. by apply (Hdisj conn).
  - intros c Hc. apply elem_of_app in Hc as [Hc|Hc].
    + specialize (Hdisj c Hc). set_solver.
    + apply list_elem_of_singleton in Hc as ->. set_solver.
  - intros c [Hc|Hc].
    + apply Hfresh. left. set_solver.
    + apply elem_of_app in Hc as [Hc|Hc]; [apply Hfresh; by right|].
      apply list_elem_of_singleton in Hc as ->. apply Hfresh. by left.
Qed.
Lemma make_conn_inv mc w :
  pool_inv mc w →
  let r := Pool.make_conn w in
  pool_frame w r.2 ∧ (∃ e, r.1 = Raise e) ∧ pool_inv mc r.2
  ∨ ∃ c, r.1 = Ok c ∧ (next_ref w ≤ c < next_ref r.2)%nat
      ∧ getpid r.2 = getpid w
      ∧ self r.2 = ConnectionPool.with_created
                     (ConnectionPool._conns_created (self w) + 1) (self w)
      ∧ created_history (trace r.2)
        = created_history (trace w) ++ [(ConnectionPool._conns_created (self w) + 1)%Z]
      ∧ (ConnectionPool._conns_created (self w) < ConnectionPool.max_conn (self w))%Z.
Proof.
  intros Hinv. unfold Pool.make_conn.
  rewrite (bind_Ok _ _ w (self w) w) by done.
  destruct (Z.leb_spec (ConnectionPool.max_conn (self w))
              (ConnectionPool._conns_created (self w))) as [Hcap|Hcap].
  - left. simpl. split; [apply pool_frame_refl|]. split; [by eexists|done].
  - destruct (make_conn_loop_cases 3 w) as (Hpid & Hnext & evs & Htr & Hcases).
    destruct (Pool.make_conn_loop 3 w) as [r w1]. simpl in *.
    destruct Hcases as [(c & o & s & k & -> & Hrange & Hself & _ & _ & _ & _ & Hhist)
                       |[(-> & Hself & _ & Hhist)|(k & -> & Hself & _ & _ & Hhist)]].
    + right. exists c. rewrite Htr, created_history_app, Hhist. done.
    + left. assert (pool_frame w w1) as Hf.
      { repeat split; auto. by rewrite Htr, created_history_app, Hhist, app_nil_r. }
      split; [done|]. split; [by eexists|]. by apply pool_inv_frame with w.
    + left. assert (pool_frame w w1) as Hf.
      { repeat split; auto. by rewrite Htr, created_history_app, Hhist, app_nil_r. }
      split; [done|]. split; [by eexists|]. by apply pool_inv_frame with w.
Qed.

Lemma get_connection_inv mc w : pool_inv mc w → pool_inv mc (Pool.get_connection w).2.
Proof.
  intros Hinv. unfold Pool.get_connection.
  apply bind_inv; [by apply check_pid_inv|].
  clear w Hinv. intros _ w Hinv.
  rewrite (bind_Ok _ _ w (self w) w) by done.
  destruct (pop (ConnectionPool._conns_available (self w))) as [[rest conn]|] eqn:Hpop.
  - apply pop_Some in Hpop.
    destruct Hinv as (Hrest & [Hle Hhist] & Hmax & Hnd & Hdisj & Hfresh & Hmc).
    unfold at_rest in Hrest. rewrite Hpop in *. rewrite length_app in Hrest. simpl in Hrest.
    apply NoDup_app in Hnd as (Hnd & Hnotin & _).
    assert (conn ∉ ConnectionPool._conns_inuse (self w)) as Hnew.
    { apply Hdisj. apply elem_of_app. right. by apply list_elem_of_singleton. }
    pose proof (size_add _ _ Hnew) as Hsz.
    unfold_M. simpl. unfold pool_inv, at_rest, bounded. simpl.
    repeat split; auto; try lia.
    + intros c Hc Hc'. apply elem_of_union in Hc' as [Hc'|Hc'].
      * apply elem_of_singleton in Hc' as ->.
        apply (Hnotin conn Hc). by apply list_elem_of_singleton.
      * apply (Hdisj c); [|done]. apply elem_of_app. by left.
    + intros c [Hc|Hc]; apply Hfresh.
      * apply elem_of_union in Hc as [Hc|Hc]; [|by left].
        apply elem_of_singleton in Hc as ->. right.
        apply elem_of_app. right. by apply list_elem_of_singleton.
      * right. apply elem_of_app. by left.
  - destruct (make_conn_inv mc w Hinv) as [(_ & [e He] & Hinv1)
                                       |(c & Hc & Hrange & Hpid & Hself & Hhist & Hcap)].
    + destruct (Pool.make_conn w) as [r w1] eqn:Hmk. simpl in He, Hinv1. subst r.
      erewrite bind_Raise by exact Hmk. done.
    + destruct (Pool.make_conn w) as [r w1] eqn:Hmk.
      simpl in Hc, Hrange, Hpid, Hself, Hhist. subst r.
      erewrite bind_Ok by exact Hmk.
      destruct Hinv as (Hrest & [Hle Hhistb] & Hmax & Hnd & Hdisj & Hfresh & Hmc).
      unfold at_rest in Hrest.
      assert (c ∉ ConnectionPool._conns_inuse (self w)) as Hnew.
      { intros Hin. assert (c < next_ref w)%nat by (apply Hfresh; by left). lia. }
      pose proof (size_add _ _ Hnew) as Hsz.
      unfold_M. simpl. unfold pool_inv, at_rest, bounded. simpl.
      rewrite Hself, Hhist. simpl.
      repeat split; auto; try lia.
      * apply Forall_app. split; [done|]. repeat constructor. lia.
      * intros c' Hc' Hin. apply elem_of_union in Hin as [Hin|Hin].
        -- apply elem_of_singleton in Hin as ->.
           assert (c < next_ref w)%nat by (apply Hfresh; by right). lia.
        -- by apply (Hdisj c').
      * intros c' [Hc'|Hc'].
        -- apply elem_of_union in Hc' as [Hc'|Hc'].
           ++ apply elem_of_singleton in Hc' as ->. lia.
           ++ assert (c' < next_ref w)%nat by (apply Hfresh; by left). lia.
        -- assert (c' < next_ref w)%nat by (apply Hfresh; by right). lia.
Qed.
Lemma new_pool_inv name max_conn debug kwargs pid net cl :
  (∀ n, max_conn = Some n → (0 ≤ n)%Z) →
  let w0 := new_pool name max_conn debug kwargs (boot pid net cl) in
  pool_inv (ConnectionPool.max_conn (self w0)) w0.
Proof.
  intros Hmax. unfold new_pool, Pool.__init__. unfold_M. simpl.
  apply pool_inv_init; [|constructor].
  destruct max_conn as [n|]; [|done].
  specialize (Hmax n eq_refl).
  destruct (Z.eqb_spec n 0); lia.
Qed.

Lemma step_inv mc o w : pool_inv mc w → pool_inv mc (step o w).
Proof.
  intros Hinv. destruct o as [|conn|conn|child]; simpl.
  - by apply get_connection_inv.
  - by apply release_inv.
  - by apply remove_inv.
  - exact Hinv.
Qed.

Lemma run_inv mc ops w : pool_inv mc w → pool_inv mc (run ops w).
Proof.
  revert w. induction ops as [|o ops IH]; intros w Hinv; simpl; [done|].
  apply IH. by apply step_inv.
Qed.

(** C1: from a pool built by [__init__] with a capacity that is not
    negative, after every sequence of [get_connection], [release] and
    [remove] calls (and forks of the process in between), each made under
    its precondition, the pool is at rest with
    [_conns_created = |_conns_inuse| + |_conns_available|], and
    [_conns_created], now and at every one of its earlier values, is at
    most [max_conn], which never changed. *)
Theorem pool_invariant name max_conn debug kwargs pid net cl ops :
  (∀ n, max_conn = Some n → (0 ≤ n)%Z) →
  let w0 := new_pool name max_conn debug kwargs (boot pid net cl) in
  admissible ops w0 →
  at_rest (run ops w0) ∧ bounded (run ops w0)
  ∧ ConnectionPool.max_conn (self (run ops w0)) = ConnectionPool.max_conn (self w0).
Proof.
  intros Hmax w0 _.
  pose proof (new_pool_inv name max_conn debug kwargs pid net cl Hmax) as Hinv.
  apply (run_inv _ ops) in Hinv.
  destruct Hinv as (Hrest & Hb & _ & _ & _ & _ & Hmc). done.
Qed.

Lemma pool_invariant_witness :
  let w0 := tracker_pool [up 0; up 1; up 0] in
  admissible pool_ops_example w0
  ∧ at_rest (run pool_ops_example w0) ∧ bounded (run pool_ops_example w0)
  ∧ ConnectionPool.max_conn (self (run pool_ops_example w0))
    = ConnectionPool.max_conn (self w0).
Proof.
  assert (admissible pool_ops_example (tracker_pool [up 0; up 1; up 0])) as Hadm.
  { vm_compute. repeat split; auto. }
  split; [exact Hadm|].
  apply (pool_invariant "Tracker Pool" (Some 2%Z) false tracker_kwargs 100
           [up 0; up 1; up 0] [] pool_ops_example); [|exact Hadm].
  intros n [= <-]. lia.
Defined.

Lemma new_events_app {A} (m : M A) w evs :
  trace (m w).2 = trace w ++ evs → new_events m w = evs.
Proof. intros H. unfold new_events. rewrite H. apply drop_app_length. Qed.

Lemma replicate_false_true k l : replicate k false ++ [true] = l → true ∈ l.
Proof. intros <-. apply elem_of_app. right. by apply list_elem_of_singleton. Qed.

(** ** The retry loop against the transport *)

(** One try is decided by the attempt at the head of the network script:
    the new object is number [next_ref], it picks one of the endpoints
    of the pool, and it is connected and counted when the endpoint can be
    reached. *)
Lemma one_try_script w a rest :
  network w = a :: rest →
  (ConnectionPool.conn_kwargs (self w)).1 ≠ [] →
  let r := one_try w in
  let p := self w in
  network r.2 = rest ∧ getpid r.2 = getpid w ∧ next_ref r.2 = S (next_ref w)
  ∧ ∃ addr port,
      (addr, port) ∈ (ConnectionPool.conn_kwargs p).1
      ∧ if reachable a
        then r.1 = Ok (next_ref w)
             ∧ self r.2 = ConnectionPool.with_created (ConnectionPool._conns_created p + 1) p
             ∧ trace r.2 = trace w ++ [EvConnect addr port true;
                                       EvCreated (ConnectionPool._conns_created p + 1)]
             ∧ ∃ o, heap r.2 !! next_ref w = Some o
                  ∧ Connection.sock o = Some {| peer_addr := addr; peer_port := port |}
                  ∧ Connection.pid o = getpid w
        else r.1 = Raise (ConnectionError (ErrorMessage (Some addr) (Some port)))
             ∧ self r.2 = p
             ∧ trace r.2 = trace w ++ [EvConnect addr port false].
Proof.
  intros Hnet Hhosts. unfold one_try.
  rewrite (bind_Ok _ _ w (self w) w) by done.
  erewrite bind_Ok by reflexivity.
  set (o := {| Connection.pid := getpid w |}).
  set (w0 := set_next_ref _ _).
  assert (Ha : next_attempt w0 = (Ok a, set_network rest w0)).
  { unfold next_attempt. change (network w0) with (network w). by rewrite Hnet. }
  assert (Hc : heap w0 !! next_ref w = Some o) by apply lookup_insert_eq.
  pose proof (connect_run (next_ref w) o w0 a _ Hc eq_refl Ha eq_refl) as Hrun.
  destruct (lookup_lt_is_Some_2 (Connection.host_tuple o)
              (pick a mod length (Connection.host_tuple o))) as [[addr port] Hlk].
  { apply Nat.mod_upper_bound. simpl.
    by destruct (ConnectionPool.conn_kwargs (self w)).1. }
  rewrite Hlk in Hrun. simpl in Hrun.
  assert ((addr, port) ∈ (ConnectionPool.conn_kwargs (self w)).1) as Hin.
  { by apply list_elem_of_lookup_2 in Hlk. }
  destruct (reachable a).
  - erewrite bind_Ok by apply Hrun.
    unfold_M. simpl.
    split; [done|]. split; [done|]. split; [done|].
    exists addr, port. split; [done|]. split; [done|]. split; [done|].
    split; [by rewrite <- (assoc_L (++))|].
    eexists. rewrite lookup_insert_eq. done.
  - erewrite bind_Raise by apply Hrun. simpl.
    split; [done|]. split; [done|]. split; [done|].
    by exists addr, port.
Qed.

(** A failed try costs one try and one attempt of the script, and leaves
    the pool as it was. *)
Lemma make_conn_loop_down n w a rest :
  network w = a :: rest →
  (ConnectionPool.conn_kwargs (self w)).1 ≠ [] →
  reachable a = false →
  ∃ w1 addr port,
    Pool.make_conn_loop (S n) w = Pool.make_conn_loop n w1
    ∧ network w1 = rest ∧ self w1 = self w ∧ getpid w1 = getpid w
    ∧ next_ref w1 = S (next_ref w)
    ∧ trace w1 = trace w ++ [EvConnect addr port false].
Proof.
  intros Hnet Hhosts Ha.
  destruct (one_try_script w a rest Hnet Hhosts)
    as (Hn & Hp & Hr & addr & port & _ & Hcase).
  rewrite Ha in Hcase. destruct Hcase as (Hres & Hself & Htr).
  exists (one_try w).2, addr, port. split; [|done].
  rewrite make_conn_loop_S. unfold try_except.
  destruct (one_try w) as [r w1]. simpl in Hres. by subst r.
Qed.

(** A try that connects ends the loop. *)
Lemma make_conn_loop_up n w a rest :
  network w = a :: rest →
  (ConnectionPool.conn_kwargs (self w)).1 ≠ [] →
  reachable a = true →
  let r := Pool.make_conn_loop (S n) w in
  let p := self w in
  ∃ addr port o,
    (addr, port) ∈ (ConnectionPool.conn_kwargs p).1
    ∧ r.1 = Ok (next_ref w) ∧ network r.2 = rest
    ∧ self r.2 = ConnectionPool.with_created (ConnectionPool._conns_created p + 1) p
    ∧ trace r.2 = trace w ++ [EvConnect addr port true;
                              EvCreated (ConnectionPool._conns_created p + 1)]
    ∧ heap r.2 !! next_ref w = Some o
    ∧ Connection.sock o = Some {| peer_addr := addr; peer_port := port |}
    ∧ Connection.pid o = getpid w.
Proof.
  intros Hnet Hhosts Ha.
  destruct (one_try_script w a rest Hnet Hhosts)
    as (Hn & Hp & Hr & addr & port & Hin & Hcase).
  rewrite Ha in Hcase. destruct Hcase as (Hres & Hself & Htr & o & Ho & Hs & Hpid).
  rewrite make_conn_loop_S. unfold try_except.
  destruct (one_try w) as [r w1]. simpl in *. subst r. simpl.
  by exists addr, port, o.
Qed.

(** C2: when the transport fails the next two connect attempts and then
    succeeds, [make_conn], on a pool that is not full, returns a new
    Connection object that is connected to one of the endpoints of the
    pool, and [_conns_created] has grown by exactly 1; when the transport
    fails three times in a row, [make_conn] raises [ConnectionError]
    and leaves [_conns_created], and the whole pool, as it was.  In both
    cases [make_conn] makes exactly three connect attempts. *)
Theorem make_conn_retry (w : World) (a1 a2 a3 : attempt) (rest : list attempt) :
  network w = a1 :: a2 :: a3 :: rest →
  reachable a1 = false → reachable a2 = false →
  (ConnectionPool.conn_kwargs (self w)).1 ≠ [] →
  let r := Pool.make_conn w in
  ((created w < ConnectionPool.max_conn (self w))%Z →
     network r.2 = rest
     ∧ connects (new_events Pool.make_conn w) = [false; false; reachable a3]
     ∧ if reachable a3
       then ∃ o addr port,
              r.1 = Ok (next_ref w + 2)%nat
              ∧ heap r.2 !! (next_ref w + 2)%nat = Some o
              ∧ Connection.sock o = Some {| peer_addr := addr; peer_port := port |}
              ∧ (addr, port) ∈ (ConnectionPool.conn_kwargs (self w)).1
              ∧ Connection.pid o = getpid w
              ∧ self r.2 = ConnectionPool.with_created (created w + 1) (self w)
              ∧ created r.2 = (created w + 1)%Z
       else r.1 = Raise (ConnectionError FailAfter3Times) ∧ self r.2 = self w)
  ∧ (reachable a3 = false →
     ∃ msg, r.1 = Raise (ConnectionError msg) ∧ created r.2 = created w).
Proof.
  intros Hnet Ha1 Ha2 Hhosts r.
  assert ((created w < ConnectionPool.max_conn (self w))%Z →
     network r.2 = rest
     ∧ connects (new_events Pool.make_conn w) = [false; false; reachable a3]
     ∧ if reachable a3
       then ∃ o addr port,
              r.1 = Ok (next_ref w + 2)%nat
              ∧ heap r.2 !! (next_ref w + 2)%nat = Some o
              ∧ Connection.sock o = Some {| peer_addr := addr; peer_port := port |}
              ∧ (addr, port) ∈ (ConnectionPool.conn_kwargs (self w)).1
              ∧ Connection.pid o = getpid w
              ∧ self r.2 = ConnectionPool.with_created (created w + 1) (self w)
              ∧ created r.2 = (created w + 1)%Z
       else r.1 = Raise (ConnectionError FailAfter3Times) ∧ self r.2 = self w)
    as Hroom.
  { intros Hfree. subst r. unfold created in *.
    assert (Pool.make_conn w = Pool.make_conn_loop 3 w) as Hmk.
    { unfold Pool.make_conn.
      rewrite (bind_Ok _ _ w (self w) w) by done.
      by rewrite (proj2 (Z.leb_gt _ _)) by lia. }
    unfold new_events. rewrite Hmk.
    destruct (make_conn_loop_down 2 w a1 _ Hnet Hhosts Ha1)
      as (w1 & ad1 & po1 & -> & Hnet1 & Hself1 & Hpid1 & Hnext1 & Htr1).
    rewrite <- Hself1 in Hhosts.
    destruct (make_conn_loop_down 1 w1 a2 _ Hnet1 Hhosts Ha2)
      as (w2 & ad2 & po2 & -> & Hnet2 & Hself2 & Hpid2 & Hnext2 & Htr2).
    rewrite <- Hself2 in Hhosts.
    destruct (reachable a3) eqn:Ha3.
    - destruct (make_conn_loop_up 0 w2 a3 _ Hnet2 Hhosts Ha3)
        as (addr & port & o & Hin & Hres & Hnet3 & Hself3 & Htr3 & Ho & Hs & Hpid3).
      rewrite Hnext2, Hnext1 in Hres, Ho.
      replace (S (S (next_ref w))) with (next_ref w + 2)%nat in Hres, Ho by lia.
      rewrite Hself2, Hself1 in Hself3, Hin.
      split; [done|]. split.
      + rewrite Htr3, Htr2, Htr1, <- !(assoc_L (++)).
        by rewrite drop_app_length.
      + exists o, addr, port. rewrite Hself3.
        repeat split; [done|done|done|done|congruence].
    - destruct (make_conn_loop_down 0 w2 a3 _ Hnet2 Hhosts Ha3)
        as (w3 & ad3 & po3 & -> & Hnet3 & Hself3 & Hpid3 & Hnext3 & Htr3).
      simpl. split; [done|]. split.
      + rewrite Htr3, Htr2, Htr1, <- !(assoc_L (++)).
        by rewrite drop_app_length.
      + split; [done|congruence]. }
  split; [exact Hroom|].
  intros Ha3.
  destruct (Z.lt_ge_cases (created w) (ConnectionPool.max_conn (self w))) as [Hfree|Hfull].
  - destruct (Hroom Hfree) as (_ & _ & Hcase). rewrite Ha3 in Hcase.
    destruct Hcase as [Hres Hself].
    exists FailAfter3Times. unfold created. by rewrite Hself.
  - exists TooManyConnections. subst r. unfold Pool.make_conn, created in *.
    rewrite (bind_Ok _ _ w (self w) w) by done.
    by rewrite (proj2 (Z.leb_le _ _)) by lia.
Qed.

Lemma make_conn_retry_witness :
  (∃ o addr port,
     (Pool.make_conn (tracker_pool [down 0; down 1; up 1])).1 = Ok 2%nat
     ∧ heap (Pool.make_conn (tracker_pool [down 0; down 1; up 1])).2 !! 2%nat = Some o
     ∧ Connection.sock o = Some {| peer_addr := addr; peer_port := port |}
     ∧ created (Pool.make_conn (tracker_pool [down 0; down 1; up 1])).2 = 1%Z)
  ∧ ((Pool.make_conn (tracker_pool [down 0; down 1; down 1; up 0])).1
       = Raise (ConnectionError FailAfter3Times)
     ∧ self (Pool.make_conn (tracker_pool [down 0; down 1; down 1; up 0])).2
       = self (tracker_pool [down 0; down 1; down 1; up 0])).
Proof.
  split.
  - destruct (make_conn_retry (tracker_pool [down 0; down 1; up 1])
                (down 0) (down 1) (up 1) []) as [H _];
      [reflexivity|reflexivity|reflexivity|done|].
    destruct H as (_ & _ & o & addr & port & Hr & Ho & Hs & _ & _ & _ & Hc);
      [vm_compute; reflexivity|].
    by exists o, addr, port.
  - destruct (make_conn_retry (tracker_pool [down 0; down 1; down 1; up 0])
                (down 0) (down 1) (down 1) [up 0]) as [H _];
      [reflexivity|reflexivity|reflexivity|done|].
    destruct H as (_ & _ & H); [vm_compute; reflexivity|].
    exact H.
Defined.

(** C10: on a Connection whose socket is set, [connect] returns at once
    and changes nothing; on one without a socket, when the endpoint drawn
    from a non-empty [host_tuple] accepts the connection, [connect] sets
    [remote_addr], [remote_port] and [sock] to that endpoint; and calling
    [connect] twice in a row has the very effect of calling it once. *)
Theorem connect_idempotent (c : ref) (w : World) :
  (∀ o, heap w !! c = Some o → is_Some (Connection.sock o) →
        Conn.connect c w = (Ok tt, w))
  ∧ (∀ o a rest,
        heap w !! c = Some o → Connection.sock o = None →
        Connection.host_tuple o ≠ [] →
        network w = a :: rest → reachable a = true →
        ∃ addr port,
          (addr, port) ∈ Connection.host_tuple o
          ∧ (Conn.connect c w).1 = Ok tt
          ∧ heap (Conn.connect c w).2 !! c
            = Some (Connection.with_sock
                      (Some {| peer_addr := addr; peer_port := port |})
                      (Connection.with_remote addr port o)))
  ∧ (Conn.connect c;; Conn.connect c) w = Conn.connect c w.
Proof.
  split; [|split].
  - intros o Hc Hs. by apply connect_connected with o.
  - intros o a rest Hc Hs Hne Hnet Hup.
    assert (next_attempt w = (Ok a, set_network rest w)) as Ha
      by (unfold next_attempt; by rewrite Hnet).
    pose proof (connect_run c o w a _ Hc Hs Ha eq_refl) as Hrun.
    destruct (lookup_lt_is_Some_2 (Connection.host_tuple o)
                (pick a mod length (Connection.host_tuple o))) as [[addr port] Hl].
    { apply Nat.mod_upper_bound. by destruct (Connection.host_tuple o). }
    rewrite Hl, Hup in Hrun. simpl in Hrun.
    exists addr, port. split; [by eapply list_elem_of_lookup_2|].
    rewrite Hrun. simpl. split; [done|]. apply lookup_insert_eq.
  - destruct (heap w !! c) as [o|] eqn:Hc.
    + destruct (Connection.sock o) as [s|] eqn:Hs.
      * assert (Conn.connect c w = (Ok tt, w)) as Hrun
          by (apply connect_connected with o; [done|by rewrite Hs]).
        erewrite bind_Ok by exact Hrun. done.
      * destruct (next_attempt_Ok w) as (a & w1 & Ha & _ & _ & Hh & _).
        pose proof (connect_run c o w a w1 Hc Hs Ha Hh) as Hrun.
        destruct (Connection.host_tuple o !! _) as [[addr port]|].
        -- simpl in Hrun. destruct (reachable a).
           ++ erewrite bind_Ok by exact Hrun. rewrite Hrun.
              eapply connect_connected; [apply lookup_insert_eq|]. by eexists.
           ++ erewrite bind_Raise by exact Hrun. done.
        -- erewrite bind_Raise by exact Hrun. done.
    + assert (Conn.connect c w = (Raise AttributeError, w)) as Hrun.
      { unfold Conn.connect, deref, mbind, ST_bind, bind. by rewrite Hc. }
      erewrite bind_Raise by exact Hrun. done.
Qed.

Lemma connect_idempotent_witness :
  let w := one_connection [up 1] in
  let w' := (Conn.connect 0 w).2 in
  Conn.connect 0 w' = (Ok tt, w')
  ∧ ∃ addr port,
      (addr, port) ∈ tracker_kwargs.1
      ∧ (Conn.connect 0 w).1 = Ok tt
      ∧ Connection.sock <$> heap w' !! 0%nat
        = Some (Some {| peer_addr := addr; peer_port := port |}).
Proof.
  split.
  - eapply (proj1 (connect_idempotent 0 (Conn.connect 0 (one_connection [up 1])).2)).
    + vm_compute. reflexivity.
    + vm_compute. eexists. reflexivity.
  - destruct (proj1 (proj2 (connect_idempotent 0 (one_connection [up 1])))
               {| Connection.pid := 100; Connection.host_tuple := tracker_kwargs.1;
                  Connection.timeout := 30; Connection.remote_addr := None;
                  Connection.remote_port := None; Connection.sock := None |}
               (up 1) [])
      as (addr & port & Hin & Hok & Hheap).
    + vm_compute. reflexivity.
    + reflexivity.
    + discriminate.
    + reflexivity.
    + reflexivity.
    + exists addr, port. split; [exact Hin|]. split; [exact Hok|].
      exact (f_equal (fmap Connection.sock) Hheap).
Defined.

Lemma make_conn_full w :
  (ConnectionPool.max_conn (self w) ≤ ConnectionPool._conns_created (self w))%Z →
  Pool.make_conn w = (Raise (ConnectionError TooManyConnections), w).
Proof.
  intros Hcap. unfold Pool.make_conn. rewrite (bind_Ok _ _ w (self w) w) by done.
  by rewrite (proj2 (Z.leb_le _ _) Hcap).
Qed.

Lemma make_conn_cases w :
  let r := Pool.make_conn w in
  (∃ c o s, r.1 = Ok c ∧ (next_ref w ≤ c)%nat
     ∧ self r.2 = ConnectionPool.with_created
                    (ConnectionPool._conns_created (self w) + 1) (self w)
     ∧ heap r.2 !! c = Some o ∧ Connection.sock o = Some s)
  ∨ (∃ e, r.1 = Raise e ∧ self r.2 = self w).
Proof.
  unfold Pool.make_conn. rewrite (bind_Ok _ _ w (self w) w) by done.
  destruct (_ <=? _)%Z; [right; by eexists|].
  destruct (make_conn_loop_cases 3 w) as (_ & _ & evs & _ & Hcases).
  destruct Hcases as [(c & o & s & k & Hr & Hrange & Hself & Hc & Hs & _)
                     |[(Hr & Hself & _)|(k & Hr & Hself & _)]].
  - left. exists c, o, s. repeat split; auto. lia.
  - right. by eexists.
  - right. by eexists.
Qed.

(** C6: [get_connection] first runs [_check_pid], which in the process
    that owns the pool changes nothing.  Then, when a connection is idle,
    the last one of the idle list is returned and moved to the in-use
    set, with no Connection object made and [_conns_created] untouched;
    when none is idle the result is that of [make_conn], a success being
    a new connected object counted in [_conns_created]; with none idle
    and [_conns_created >= max_conn] it raises [ConnectionError]; and
    every connection it returns is in the in-use set. *)
Theorem get_connection_spec (w w1 : World) :
  Pool._check_pid w = (Ok tt, w1) →
  let p := self w1 in
  (ConnectionPool.pid (self w) = getpid w → w1 = w)
  ∧ (∀ rest conn, ConnectionPool._conns_available p = rest ++ [conn] →
       Pool.get_connection w
       = (Ok conn,
          set_self (ConnectionPool.with_inuse ({[conn]} ∪ ConnectionPool._conns_inuse p)
                      (ConnectionPool.with_available rest p)) w1))
  ∧ (ConnectionPool._conns_available p = [] →
       Pool.get_connection w = (conn ← Pool.make_conn; add_inuse conn;; ret conn) w1
       ∧ ∀ conn w', Pool.get_connection w = (Ok conn, w') →
           (next_ref w1 ≤ conn)%nat ∧ created w' = (created w1 + 1)%Z
           ∧ ∃ o s, heap w' !! conn = Some o ∧ Connection.sock o = Some s)
  ∧ (ConnectionPool._conns_available p = [] →
     (ConnectionPool.max_conn p ≤ ConnectionPool._conns_created p)%Z →
       Pool.get_connection w = (Raise (ConnectionError TooManyConnections), w1))
  ∧ (∀ conn w', Pool.get_connection w = (Ok conn, w') →
       conn ∈ ConnectionPool._conns_inuse (self w')).
Proof.
  intros Hcheck p.
  assert (Pool.get_connection w =
    (conn ← match pop (ConnectionPool._conns_available p) with
            | Some (rest, conn) =>
                update_self (ConnectionPool.with_available rest);; ret conn
            | None => Pool.make_conn
            end; add_inuse conn;; ret conn) w1) as Hget.
  { unfold Pool.get_connection. erewrite bind_Ok by exact Hcheck.
    by rewrite (bind_Ok _ _ w1 (self w1) w1). }
  assert (∀ conn w', (conn0 ← Pool.make_conn; add_inuse conn0;; ret conn0) w1
                     = (Ok conn, w') →
            conn ∈ ConnectionPool._conns_inuse (self w')
            ∧ (next_ref w1 ≤ conn)%nat ∧ created w' = (created w1 + 1)%Z
            ∧ ∃ o s, heap w' !! conn = Some o ∧ Connection.sock o = Some s) as Hnew.
  { intros conn w'.
    destruct (make_conn_cases w1) as [(c & o & s & Hr & Hrange & Hself & Hc & Hs)
                                     |(e & Hr & _)];
      destruct (Pool.make_conn w1) as [r w2] eqn:Hmk; simpl in *; subst r.
    - erewrite bind_Ok by exact Hmk.
      unfold add_inuse. unfold_M. simpl. intros [= <- <-]. simpl.
      unfold created. simpl. rewrite Hself. simpl.
      split; [set_solver|]. split; [lia|]. split; [done|]. by exists o, s.
    - erewrite bind_Raise by exact Hmk. done. }
  split; [|split; [|split; [|split]]].
  - intros Hpid. rewrite (check_pid_same w Hpid) in Hcheck. congruence.
  - intros rest conn Hav. rewrite Hget, Hav, pop_snoc. reflexivity.
  - intros Hav. rewrite Hget, Hav. simpl. split; [done|].
    intros conn w' Heq. by apply Hnew in Heq as (_ & ? & ? & ?).
  - intros Hav Hcap. rewrite Hget, Hav. simpl.
    erewrite bind_Raise by (by apply make_conn_full). reflexivity.
  - intros conn w'. rewrite Hget.
    destruct (pop (ConnectionPool._conns_available p)) as [[rest c]|] eqn:Hpop.
    + unfold add_inuse. unfold_M. simpl. intros [= <- <-]. simpl. set_solver.
    + intros Heq. by apply Hnew in Heq as (? & _).
Qed.

Lemma get_connection_spec_witness :
  Pool.get_connection pool_with_idle
  = (Ok 0%nat,
     set_self (ConnectionPool.with_inuse
                 ({[0%nat]} ∪ ConnectionPool._conns_inuse (self pool_with_idle))
                 (ConnectionPool.with_available [] (self pool_with_idle)))
       pool_with_idle).
Proof.
  assert (Pool._check_pid pool_with_idle = (Ok tt, pool_with_idle)) as Hcheck.
  { apply check_pid_same. vm_compute. reflexivity. }
  apply (proj1 (proj2 (get_connection_spec pool_with_idle pool_with_idle Hcheck))
           [] 0%nat).
  vm_compute. reflexivity.
Defined.

(** * Properties of tcp_recv_response *)

(** [response] is a text string when the loop is entered, so that the loop
    ends at its first [recv]: in the handler when [recv] raises, and at
    [response += resp] when it returns bytes. *)
Lemma recv_loop_text n b incoming s total_size :
  recv_loop n b incoming (Str s) total_size
  = match incoming with
    | RecvError args :: _ => recv_failed args
    | _ => Raises TypeError
    end.
Proof. by destruct incoming as [|[data|args] rest]. Qed.

Lemma recv_failed_raises {A} args : ∃ e, @recv_failed A args = Raises e.
Proof.
  unfold recv_failed. destruct (format_one args) as [arg|e]; eauto.
Qed.

(** C8: for every requested byte count [n], [tcp_recv_response] either
    returns a pair [(response, total_size)] with [total_size = n] or raises
    an error; it never returns fewer bytes than were asked for.  It holds
    because no call returns: [response] starts as the text string, and the
    first [recv] either raises or hands over bytes, which [response += resp]
    refuses with [TypeError]. *)
Theorem tcp_recv_response_never_short (incoming : list recv_event) (n buffer_size : Z) :
  returns_all_or_raises incoming n buffer_size
  ∧ ∃ e, tcp_recv_response incoming n buffer_size = Raises e.
Proof.
  assert (∃ e, tcp_recv_response incoming n buffer_size = Raises e) as [e He].
  { unfold tcp_recv_response. destruct (_ <? _)%Z; [by eexists|].
    rewrite recv_loop_text.
    destruct incoming as [|[data|args] rest]; [by eexists|by eexists|].
    apply recv_failed_raises. }
  split; [|by exists e].
  unfold returns_all_or_raises. by rewrite He.
Qed.

(** * Properties of the client facade *)

Ltac unfold_F :=
  unfold mbind, mret, ST_bind, ST_ret, bind, ret, raise, gets, modify, local, os,
    Facade.tracker_call, Facade.storage_call, Facade.set_metadata_call,
    new_Storage_client in *.

(** Invalid local input is turned down with [DataError] before anything
    is sent, by every operation except [modify_by_filename] and
    [modify_by_file] on an existing local file. *)
Lemma invalid_input_rejected env op s :
  invalid_input env op = true → modifies_existing_file env op = false →
  ∃ msg, perform env op s = (Raise (DataError msg), s).
Proof.
  unfold no_file, no_buffer, bad_id.
  destruct op; simpl;
    unfold Facade.upload_by_filename, Facade.upload_by_file, Facade.upload_by_buffer,
      Facade.upload_slave_by_filename, Facade.upload_slave_by_file,
      Facade.upload_slave_by_buffer, Facade.upload_appender_by_filename,
      Facade.upload_appender_by_file, Facade.upload_appender_by_buffer,
      Facade.delete_file, Facade.download_to_file, Facade.download_to_buffer,
      Facade.get_meta_data, Facade.set_meta_data, Facade.append_by_filename,
      Facade.append_by_file, Facade.append_by_buffer, Facade.truncate_file,
      Facade.modify_by_filename, Facade.modify_by_file, Facade.modify_by_buffer,
      no_file, no_buffer, bad_id;
    repeat match goal with
           | |- context [fdfs_check_file env ?f] =>
               destruct (fdfs_check_file env f) as [[] ?]; simpl
           | |- context [buffer_true ?b] => destruct (buffer_true b); simpl
           | |- context [split_remote_fileid ?r] =>
               destruct (split_remote_fileid r) as [[? ?]|]; simpl
           end;
    intros Hbad Hmod; try discriminate; by eexists.
Qed.

(** C3 fails for [modify_by_filename]: the local file exists and the
    remote file id has no slash, yet the call ends in [NameError], raised
    by [os.stat] before the file id is looked at.  Nothing was sent. *)
Theorem modify_by_filename_bad_file_id :
  invalid_input demo_env (Modify_by_filename "/etc/hosts" "nofileid" 0) = true
  ∧ perform demo_env (Modify_by_filename "/etc/hosts" "nofileid" 0) new_client
    = (Raise (NameError "os"), new_client)
  ∧ perform demo_env (Modify_by_file "/etc/hosts" "nofileid" 0) new_client
    = (Raise (NameError "os"), new_client).
Proof. repeat split. Qed.

(** Whatever the file id and the offset, [modify_by_filename] and
    [modify_by_file] on an existing file stop at [os.stat]. *)
Lemma modify_by_filename_NameError env filename appender_fileid offset s :
  (fdfs_check_file env filename).1 = true →
  Facade.modify_by_filename env filename appender_fileid offset s
  = (Raise (NameError "os"), s)
  ∧ Facade.modify_by_file env filename appender_fileid offset s
    = (Raise (NameError "os"), s).
Proof.
  unfold Facade.modify_by_filename, Facade.modify_by_file.
  destruct (fdfs_check_file env filename) as [[] msg]; simpl; [|done].
  done.
Qed.

(** With [offset] and [down_bytes] zero the storage node is asked for the
    whole file. *)
Lemma download_whole_file env local_filename remote_file_id group_name remote_filename
    store_serv s :
  split_remote_fileid remote_file_id = Some (group_name, remote_filename) →
  tracker env (calls s) (tracker_query_storage_fetch group_name remote_filename)
  = Ok store_serv →
  storage_requests (calls (Facade.download_to_file env local_filename remote_file_id 0 0 s).2)
  = storage_requests (calls s)
    ++ [(next_object s,
         storage_download_to_file store_serv local_filename 0 0 remote_filename)]
  ∧ storage_requests (calls (Facade.download_to_buffer env remote_file_id 0 0 s).2)
    = storage_requests (calls s)
      ++ [(next_object s,
           storage_download_to_buffer store_serv None 0 0 remote_filename)].
Proof.
  intros Hid Htr. unfold Facade.download_to_file, Facade.download_to_buffer.
  rewrite Hid. unfold_F. rewrite Htr. simpl.
  unfold storage_requests. rewrite !omap_app. simpl. rewrite app_nil_r.
  done.
Qed.

(** With an [offset] that is not zero, no download ever succeeds and the
    storage node is never asked. *)
Lemma download_partial env local_filename remote_file_id offset down_bytes s :
  offset ≠ 0%Z →
  (∀ r s', (Facade.download_to_file env local_filename remote_file_id offset down_bytes s
            = (r, s')
            ∨ Facade.download_to_buffer env remote_file_id offset down_bytes s = (r, s')) →
     (∃ e, r = Raise e) ∧ storage_requests (calls s') = storage_requests (calls s)).
Proof.
  intros Hoff r s'. unfold Facade.download_to_file, Facade.download_to_buffer.
  destruct (split_remote_fileid remote_file_id) as [[g f]|].
  - rewrite (proj2 (Z.eqb_neq _ _) Hoff). unfold_F. simpl.
    destruct (tracker env _ _); simpl;
      intros [H|H]; injection H as <- <-; simpl;
      (split; [by eexists|]);
      unfold storage_requests; rewrite ?omap_app; simpl; by rewrite ?app_nil_r.
  - unfold_F. intros [H|H]; injection H as <- <-; (split; [by eexists|done]).
Qed.

(** C4 fails for a partial range: asked for 3 bytes from offset 2, both
    downloads resolve the storage node and then raise
    [UnboundLocalError], since [file_offset] was never assigned; no
    download request is made. *)
Theorem download_offset_unbound :
  let r := Facade.download_to_buffer demo_env file_id 2 3 new_client in
  let r' := Facade.download_to_file demo_env "/tmp/copy" file_id 2 3 new_client in
  r.1 = Raise (UnboundLocalError "file_offset")
  ∧ calls r.2 = [TrackerCall (tracker_query_storage_fetch "group1" "M00/00/00/wKgAFF.txt")]
  ∧ r'.1 = Raise (UnboundLocalError "file_offset")
  ∧ calls r'.2 = [TrackerCall (tracker_query_storage_fetch "group1" "M00/00/00/wKgAFF.txt")].
Proof. repeat split. Qed.

(** Whatever [offset] is given, [modify_by_buffer] hands the storage
    node the file offset 0. *)
Lemma modify_by_buffer_offset env filebuffer appender_fileid group_name
    appender_filename offset store_serv s :
  buffer_true filebuffer = true →
  split_remote_fileid appender_fileid = Some (group_name, appender_filename) →
  tracker env (calls s) (tracker_query_storage_update group_name appender_filename)
  = Ok store_serv →
  storage_requests (calls (Facade.modify_by_buffer env filebuffer appender_fileid offset s).2)
  = storage_requests (calls s)
    ++ [(next_object s,
         storage_modify_by_buffer store_serv filebuffer 0
           (Z.of_nat (length (default [] filebuffer))) appender_filename)].
Proof.
  intros Hbuf Hid Htr. unfold Facade.modify_by_buffer.
  rewrite Hbuf, Hid. unfold_F. simpl. rewrite Htr. simpl.
  unfold storage_requests. rewrite !omap_app. simpl. rewrite app_nil_r.
  by destruct (Z.eqb_spec offset 0) as [->|].
Qed.

(** C5 fails for an offset that is not zero: asked to modify from offset
    5, [modify_by_buffer] sends the file offset 0. *)
Theorem modify_by_buffer_offset_dropped :
  let r := Facade.modify_by_buffer demo_env (Some hello) file_id 5 new_client in
  r.1 = Ok ∅
  ∧ storage_requests (calls r.2)
    = [(0%nat, storage_modify_by_buffer storage_node (Some hello) 0 5
                 "M00/00/00/wKgAFF.txt")].
Proof. repeat split. Qed.

(** What [set_meta_data] makes of the status of the storage node. *)
Lemma set_meta_data_status env remote_file_id group_name remote_filename meta_dict
    op_flag store_serv status s :
  split_remote_fileid remote_file_id = Some (group_name, remote_filename) →
  tracker env (calls s) (tracker_query_storage_update group_name remote_filename)
  = Ok store_serv →
  storage_set_metadata env
    (calls s ++ [TrackerCall (tracker_query_storage_update group_name remote_filename)])
    (next_object s) store_serv remote_filename meta_dict = Ok status →
  (Facade.set_meta_data env remote_file_id meta_dict op_flag s).1
  = if (status =? 0)%Z
    then Ok (<["Status" := VStr "Set meta data success."]>
               (<["Storage IP" := VStr (ip_addr store_serv)]> ∅))
    else Raise (NameError "os").
Proof.
  intros Hid Htr Hst. unfold Facade.set_meta_data.
  rewrite Hid. unfold_F. simpl. rewrite Htr. simpl. rewrite Hst. simpl.
  by destruct (status =? 0)%Z.
Qed.

(** C7 fails for a status that is not zero: the storage node answers
    status 2 and [set_meta_data] ends in [NameError], raised by
    [os.strerror] while the message of the [DataError] is built; the
    error that reaches the caller carries no status. *)
Theorem set_meta_data_status_2 :
  let r := Facade.set_meta_data demo_env file_id None "O" new_client in
  storage_set_metadata demo_env
    [TrackerCall (tracker_query_storage_update "group1" "M00/00/00/wKgAFF.txt")]
    0%nat storage_node "M00/00/00/wKgAFF.txt" None = Ok 2%Z
  ∧ r.1 = Raise (NameError "os")
  ∧ ∀ msg, r.1 ≠ Raise (DataError msg).
Proof. repeat split. intros msg. discriminate. Qed.

(** [get_storage] keeps one Storage_client per endpoint: a second call
    for the same endpoint returns the same object and changes nothing. *)
Lemma get_storage_cached store_serv s :
  let r := Facade.get_storage store_serv s in
  ∃ store, r.1 = Ok store
    ∧ storages r.2 !! (ip_addr store_serv, port store_serv) = Some store
    ∧ Facade.get_storage store_serv r.2 = (Ok store, r.2).
Proof.
  unfold Facade.get_storage. unfold_F. simpl.
  destruct (storages s !! (ip_addr store_serv, port store_serv)) as [store|] eqn:Hs;
    simpl.
  - exists store. by rewrite Hs.
  - exists (next_object s). unfold set_storages. simpl.
    by rewrite lookup_insert_eq.
Qed.

(** C9 fails outside the upload and delete operations: two
    [get_meta_data] calls for one file, resolved to one endpoint, run on
    two Storage_client objects, 0 and 1, and none is kept in
    [self.storages]; two [delete_file] calls share object 0. *)
Theorem get_meta_data_not_cached :
  let twice := (Facade.get_meta_data demo_env file_id;;
                Facade.get_meta_data demo_env file_id) new_client in
  let deleted := (Facade.delete_file demo_env file_id;;
                  Facade.delete_file demo_env file_id) new_client in
  storage_requests (calls twice.2)
  = [(0%nat, storage_get_metadata storage_node "M00/00/00/wKgAFF.txt");
     (1%nat, storage_get_metadata storage_node "M00/00/00/wKgAFF.txt")]
  ∧ storages twice.2 = ∅
  ∧ storage_requests (calls deleted.2)
    = [(0%nat, storage_delete_file storage_node "M00/00/00/wKgAFF.txt");
       (0%nat, storage_delete_file storage_node "M00/00/00/wKgAFF.txt")]
  ∧ storages deleted.2 !! ("192.168.0.20", 23000%Z) = Some 0%nat.
Proof. repeat split. Qed.

(** * Further properties of the connection pool *)

Lemma release_run conn o w :
  ConnectionPool.pid (self w) = getpid w →
  heap w !! conn = Some o →
  Pool.release conn w =
    if decide (Connection.pid o = ConnectionPool.pid (self w))
    then if decide (conn ∈ ConnectionPool._conns_inuse (self w))
         then (Ok tt,
               set_self (ConnectionPool.with_available
                           (ConnectionPool._conns_available (self w) ++ [conn])
                           (ConnectionPool.with_inuse
                              (ConnectionPool._conns_inuse (self w) ∖ {[conn]}) (self w))) w)
         else (Raise KeyError, w)
    else (Ok tt, w).
Proof.
  intros Hpid Hc. unfold Pool.release.
  erewrite bind_Ok by (by apply check_pid_same).
  rewrite (bind_Ok _ _ w o w) by (by unfold deref; rewrite Hc).
  rewrite (bind_Ok _ _ w (self w) w) by done.
  destruct (decide (Connection.pid o = _)); [|done].
  destruct (decide (conn ∈ _)); [|done].
  reflexivity.
Qed.

Lemma world_eta w :
  {| self := self w; getpid := getpid w; heap := heap w; next_ref := next_ref w;
     network := network w; closing := closing w; trace := trace w |} = w.
Proof. by destruct w. Qed.

Lemma pool_eta (p : ConnectionPool.t) :
  {| ConnectionPool.pool_name := ConnectionPool.pool_name p;
     ConnectionPool.pid := ConnectionPool.pid p;
     ConnectionPool.max_conn := ConnectionPool.max_conn p;
     ConnectionPool.conn_kwargs := ConnectionPool.conn_kwargs p;
     ConnectionPool._conns_created := ConnectionPool._conns_created p;
     ConnectionPool._conns_available := ConnectionPool._conns_available p;
     ConnectionPool._conns_inuse := ConnectionPool._conns_inuse p;
     ConnectionPool.debug := ConnectionPool.debug p |} = p.
Proof. by destruct p. Qed.

(** X1: in the process that owns the pool, releasing a connection in use
    and asking for a connection again hands back that very connection and
    leaves the pool and the world exactly as they were. *)
Theorem release_then_get conn o w :
  ConnectionPool.pid (self w) = getpid w →
  heap w !! conn = Some o →
  Connection.pid o = ConnectionPool.pid (self w) →
  conn ∈ ConnectionPool._conns_inuse (self w) →
  (Pool.release conn;; Pool.get_connection) w = (Ok conn, w).
Proof.
  intros Hpid Hc Ho Hin.
  pose proof (release_run conn o w Hpid Hc) as Hrel.
  rewrite decide_True in Hrel by done. rewrite decide_True in Hrel by done.
  erewrite bind_Ok by exact Hrel.
  unfold Pool.get_connection.
  erewrite bind_Ok by (by apply check_pid_same).
  erewrite bind_Ok by reflexivity.
  cbn [self set_self ConnectionPool._conns_available ConnectionPool.with_available].
  rewrite pop_snoc. unfold_M. simpl. f_equal.
  unfold set_self, ConnectionPool.with_inuse, ConnectionPool.with_available. simpl.
  assert ({[conn]} ∪ ConnectionPool._conns_inuse (self w) ∖ {[conn]}
          = ConnectionPool._conns_inuse (self w)) as ->.
  { apply set_eq. intros x. rewrite elem_of_union, elem_of_difference, elem_of_singleton.
    destruct (decide (x = conn)) as [->|]; naive_solver. }
  rewrite pool_eta. apply world_eta.
Qed.

Lemma release_then_get_witness :
  (Pool.release 0;; Pool.get_connection) pool_in_use = (Ok 0%nat, pool_in_use).
Proof.
  eapply (release_then_get 0 _ pool_in_use).
  - vm_compute. reflexivity.
  - vm_compute. reflexivity.
  - vm_compute. reflexivity.
  - vm_compute. reflexivity.
Defined.

(** X2: in the process that owns the pool, releasing a connection twice
    in a row raises [KeyError] at the second call, which changes nothing:
    the connection stays idle, once. *)
Theorem release_twice conn o w :
  ConnectionPool.pid (self w) = getpid w →
  heap w !! conn = Some o →
  Connection.pid o = ConnectionPool.pid (self w) →
  conn ∈ ConnectionPool._conns_inuse (self w) →
  (Pool.release conn;; Pool.release conn) w = (Raise KeyError, (Pool.release conn w).2).
Proof.
  intros Hpid Hc Ho Hin.
  pose proof (release_run conn o w Hpid Hc) as Hrel.
  rewrite decide_True in Hrel by done. rewrite decide_True in Hrel by done.
  erewrite bind_Ok by exact Hrel. rewrite Hrel.
  cbn [snd].
  erewrite release_run; [|exact Hpid|exact Hc].
  cbn [self set_self ConnectionPool.pid ConnectionPool.with_available
       ConnectionPool.with_inuse ConnectionPool._conns_inuse].
  rewrite decide_True by done.
  rewrite decide_False by set_solver. done.
Qed.

Lemma release_twice_witness :
  (Pool.release 0;; Pool.release 0) pool_in_use
  = (Raise KeyError, (Pool.release 0 pool_in_use).2).
Proof.
  eapply (release_twice 0 _ pool_in_use).
  - vm_compute. reflexivity.
  - vm_compute. reflexivity.
  - vm_compute. reflexivity.
  - vm_compute. reflexivity.
Defined.

Lemma remove_run_inuse conn w :
  conn ∈ ConnectionPool._conns_inuse (self w) →
  conn ∉ ConnectionPool._conns_available (self w) →
  Pool.remove conn w =
    (Ok tt,
     log (EvCreated (ConnectionPool._conns_created (self w) - 1))
       (set_self (ConnectionPool.with_created
                    (ConnectionPool._conns_created (self w) - 1)
                    (ConnectionPool.with_inuse
                       (ConnectionPool._conns_inuse (self w) ∖ {[conn]}) (self w))) w)).
Proof.
  intros Hin Hav. unfold Pool.remove. unfold_M. simpl.
  rewrite decide_True by done. simpl.
  rewrite decide_False by done. done.
Qed.

Lemma make_conn_not_full w :
  (ConnectionPool._conns_created (self w) < ConnectionPool.max_conn (self w))%Z →
  Pool.make_conn w = Pool.make_conn_loop 3 w.
Proof.
  intros Hcap. unfold Pool.make_conn. rewrite (bind_Ok _ _ w (self w) w) by done.
  by rewrite (proj2 (Z.leb_gt _ _) Hcap).
Qed.

(** X3: a full pool with no idle connection refuses [get_connection]
    with [ConnectionError] (too many connections); once a connection in
    use has been removed, [get_connection] no longer refuses for that
    reason: it tries to connect. *)
Theorem remove_frees_slot conn w :
  ConnectionPool.pid (self w) = getpid w →
  ConnectionPool._conns_available (self w) = [] →
  ConnectionPool._conns_created (self w) = ConnectionPool.max_conn (self w) →
  conn ∈ ConnectionPool._conns_inuse (self w) →
  Pool.get_connection w = (Raise (ConnectionError TooManyConnections), w)
  ∧ (Pool.remove conn;; Pool.get_connection) w
    = (c ← Pool.make_conn_loop 3; add_inuse c;; ret c) (Pool.remove conn w).2
  ∧ ((Pool.remove conn;; Pool.get_connection) w).1
    ≠ Raise (ConnectionError TooManyConnections).
Proof.
  intros Hpid Hav Hfull Hin. split; [|split].
  - unfold Pool.get_connection.
    erewrite bind_Ok by (by apply check_pid_same).
    erewrite bind_Ok by reflexivity. rewrite Hav. simpl.
    erewrite bind_Raise by (apply make_conn_full; lia). done.
  - assert (conn ∉ ConnectionPool._conns_available (self w)) as Hnot
      by (rewrite Hav; apply not_elem_of_nil).
    pose proof (remove_run_inuse conn w Hin Hnot) as Hrm.
    erewrite bind_Ok by exact Hrm. rewrite Hrm. cbn [snd].
    unfold Pool.get_connection.
    erewrite bind_Ok by (by apply check_pid_same).
    erewrite bind_Ok by reflexivity. simpl. rewrite Hav. simpl.
    unfold mbind at 1 3, ST_bind, bind.
    rewrite make_conn_not_full by (simpl; lia). done.
  - assert (conn ∉ ConnectionPool._conns_available (self w)) as Hnot
      by (rewrite Hav; apply not_elem_of_nil).
    pose proof (remove_run_inuse conn w Hin Hnot) as Hrm.
    erewrite bind_Ok by exact Hrm.
    unfold Pool.get_connection.
    erewrite bind_Ok by (by apply check_pid_same).
    erewrite bind_Ok by reflexivity. simpl. rewrite Hav. simpl.
    unfold mbind at 1, ST_bind, bind.
    rewrite make_conn_not_full by (simpl; lia).
    match goal with |- context [Pool.make_conn_loop 3 ?w1] =>
      destruct (make_conn_loop_cases 3 w1) as (_ & _ & evs & _ & Hcases);
      destruct (Pool.make_conn_loop 3 w1) as [r w2] end.
    simpl in Hcases.
    destruct Hcases as [(c & o & s & k & -> & _)|[(-> & _)|(k & -> & _)]]; simpl; done.
Qed.

Lemma remove_frees_slot_witness :
  Pool.get_connection pool_full = (Raise (ConnectionError TooManyConnections), pool_full)
  ∧ ((Pool.remove 1;; Pool.get_connection) pool_full).1 = Ok 2%nat.
Proof.
  destruct (remove_frees_slot 1 pool_full) as (H1 & H2 & H3).
  - vm_compute. reflexivity.
  - vm_compute. reflexivity.
  - vm_compute. reflexivity.
  - vm_compute. reflexivity.
  - split; [exact H1|]. rewrite H2. vm_compute. reflexivity.
Defined.

Lemma disconnect_ok c w :
  closes_ok w → is_Some (heap w !! c) →
  let r := Conn.disconnect c w in
  r.1 = Ok tt ∧ self r.2 = self w ∧ getpid r.2 = getpid w
  ∧ next_ref r.2 = next_ref w ∧ network r.2 = network w ∧ closes_ok r.2
  ∧ closed r.2 c
  ∧ (∀ c', c' ≠ c → heap r.2 !! c' = heap w !! c').
Proof.
  intros Hcl [o Hc]. unfold Conn.disconnect.
  rewrite (bind_Ok _ _ w o w) by (by unfold deref; rewrite Hc).
  destruct (Connection.sock o) as [s|] eqn:Hs.
  - unfold next_close. unfold_M.
    destruct (closing w) as [|b cl] eqn:Hcw; simpl.
    + repeat split; auto.
      * eexists. split; [apply lookup_insert_eq|done].
      * intros c' Hne. by apply lookup_insert_ne.
    + assert (b = true) as -> by (apply Hcl; rewrite Hcw; by left).
      simpl. repeat split; auto.
      * unfold closes_ok. simpl. intros b Hb. apply Hcl. rewrite Hcw. by right.
      * eexists. split; [apply lookup_insert_eq|done].
      * intros c' Hne. by apply lookup_insert_ne.
  - simpl. repeat split; auto. by exists o.
Qed.

Lemma for_each_disconnect l : ∀ w,
  closes_ok w → (∀ c, c ∈ l → is_Some (heap w !! c)) →
  let r := for_each l Conn.disconnect w in
  r.1 = Ok tt ∧ self r.2 = self w ∧ getpid r.2 = getpid w
  ∧ next_ref r.2 = next_ref w ∧ network r.2 = network w ∧ closes_ok r.2
  ∧ (∀ c, c ∈ l → closed r.2 c)
  ∧ (∀ c, closed w c → closed r.2 c)
  ∧ (∀ c, is_Some (heap w !! c) → is_Some (heap r.2 !! c))
  ∧ (∀ c, c ∉ l → heap r.2 !! c = heap w !! c).
Proof.
  induction l as [|c l IH]; intros w Hcl Hheap; simpl.
  - repeat split; auto. intros c Hc%elem_of_nil. done.
  - destruct (disconnect_ok c w Hcl) as (Hr & Hs & Hp & Hn & Hnet & Hcl1 & Hc1 & Hoth).
    { apply Hheap. by left. }
    destruct (Conn.disconnect c w) as [r w1] eqn:Hd. simpl in *. subst r.
    erewrite bind_Ok by exact Hd.
    assert (∀ c', is_Some (heap w !! c') → is_Some (heap w1 !! c')) as Hdom.
    { intros c' Hc'. destruct (decide (c' = c)) as [->|Hne].
      - destruct Hc1 as (o & -> & _). by eexists.
      - by rewrite Hoth. }
    destruct (IH w1 Hcl1) as (Hr' & Hs' & Hp' & Hn' & Hnet' & Hcl' & Hall & Hkeep & Hdom' & Hoth').
    { intros c' Hc'. apply Hdom, Hheap. by right. }
    repeat split; try congruence; auto.
    + intros c' Hc'. apply elem_of_cons in Hc' as [->|Hc']; [by apply Hkeep|by apply Hall].
    + intros c' (o & Ho & Hso). apply Hkeep.
      destruct (decide (c' = c)) as [->|Hne]; [done|].
      exists o. by rewrite Hoth.
    + intros c' Hc'. apply not_elem_of_cons in Hc' as [Hne Hc'].
      rewrite Hoth' by done. by apply Hoth.
Qed.

Lemma destroy_ok w :
  closes_ok w → pool_on_heap w →
  let r := Pool.destroy w in
  r.1 = Ok tt ∧ self r.2 = self w ∧ getpid r.2 = getpid w
  ∧ next_ref r.2 = next_ref w ∧ network r.2 = network w ∧ closes_ok r.2
  ∧ (∀ c, pooled w c → closed r.2 c)
  ∧ (∀ c, closed w c → closed r.2 c)
  ∧ (∀ c, is_Some (heap w !! c) → is_Some (heap r.2 !! c))
  ∧ (∀ c, ¬ pooled w c → heap r.2 !! c = heap w !! c).
Proof.
  intros Hcl Hheap. unfold Pool.destroy.
  rewrite (bind_Ok _ _ w (self w) w) by done.
  set (l := elements _ ++ _).
  assert (∀ c, c ∈ l ↔ pooled w c) as Hl.
  { intros c. unfold l, pooled. rewrite elem_of_app, elem_of_elements. done. }
  destruct (for_each_disconnect l w Hcl) as (? & ? & ? & ? & ? & ? & Hall & ? & ? & Hoth).
  { intros c Hc. apply Hheap. by apply Hl. }
  repeat split; auto.
  - intros c Hc. apply Hall. by apply Hl.
  - intros c Hc. apply Hoth. by rewrite Hl.
Qed.

(** X4: however its closing of sockets goes, the bookkeeping of the pool
    survives [destroy]: the counter, the idle list and the in-use set are
    what they were.  When every socket closes, each connection of the
    pool ends up without a socket, so that in the same process the next
    [get_connection] hands out an idle connection that has no socket. *)
Theorem destroy_keeps_bookkeeping w :
  self (Pool.destroy w).2 = self w
  ∧ (closes_ok w → pool_on_heap w →
     (Pool.destroy w).1 = Ok tt
     ∧ (∀ c, pooled w c → closed (Pool.destroy w).2 c)
     ∧ (ConnectionPool.pid (self w) = getpid w →
        ∀ rest conn, ConnectionPool._conns_available (self w) = rest ++ [conn] →
          ∃ w', (Pool.destroy;; Pool.get_connection) w = (Ok conn, w')
                ∧ closed w' conn)).
Proof.
  split; [apply destroy_frame|].
  intros Hcl Hheap.
  destruct (destroy_ok w Hcl Hheap) as (Hr & Hs & Hp & _ & _ & _ & Hall & _).
  split; [done|]. split; [done|].
  intros Hpid rest conn Hav.
  destruct (Pool.destroy w) as [r w1] eqn:Hd. simpl in *. subst r.
  erewrite bind_Ok by exact Hd.
  unfold Pool.get_connection.
  erewrite bind_Ok by (apply check_pid_same; congruence).
  erewrite bind_Ok by reflexivity.
  rewrite Hs, Hav, pop_snoc. unfold_M. simpl.
  eexists. split; [reflexivity|].
  destruct (Hall conn) as (o & Ho & Hso).
  { right. rewrite Hav. apply elem_of_app. right. by apply list_elem_of_singleton. }
  by exists o.
Qed.

Lemma destroy_keeps_bookkeeping_witness :
  ∃ w', (Pool.destroy;; Pool.get_connection) pool_with_idle = (Ok 0%nat, w')
        ∧ closed w' 0.
Proof.
  apply (proj2 (proj2 (proj2 (destroy_keeps_bookkeeping pool_with_idle)
           ltac:(intros b Hb; vm_compute in Hb; inversion Hb)
           ltac:(intros c Hc; vm_compute in Hc; destruct Hc as [Hc|Hc];
                 [discriminate Hc|inversion Hc; subst; [vm_compute; eauto|
                  match goal with H : _ ∈ [] |- _ => inversion H end]])))
         ltac:(vm_compute; reflexivity) [] 0%nat).
  vm_compute. reflexivity.
Defined.

Lemma one_try_heap w :
  let r := one_try w in
  (∀ c', c' ≠ next_ref w → heap r.2 !! c' = heap w !! c')
  ∧ closing r.2 = closing w
  ∧ (∀ c, r.1 = Ok c →
       ∃ o s, heap r.2 !! c = Some o ∧ Connection.sock o = Some s
              ∧ Connection.pid o = getpid w).
Proof.
  unfold one_try.
  rewrite (bind_Ok _ _ w (self w) w) by done.
  erewrite bind_Ok by reflexivity.
  set (o := {| Connection.pid := getpid w |}).
  set (w0 := set_next_ref _ _).
  destruct (next_attempt_Ok w0) as (a & w1 & Ha & Hself & Hpid & Hheap & Hnext & Htr & Hcl & _).
  assert (Hc : heap w0 !! next_ref w = Some o) by apply lookup_insert_eq.
  pose proof (connect_run (next_ref w) o w0 a w1 Hc eq_refl Ha Hheap) as Hrun.
  assert (∀ c', c' ≠ next_ref w → heap w1 !! c' = heap w !! c') as Hw1.
  { intros c' Hne. rewrite Hheap. unfold w0. simpl. by apply lookup_insert_ne. }
  destruct (Connection.host_tuple o !! _) as [[addr port]|].
  - simpl in Hrun. destruct (reachable a).
    + erewrite bind_Ok by apply Hrun.
      unfold_M. simpl. rewrite Hcl. split; [|split; [done|]].
      * intros c' Hne. rewrite !lookup_insert_ne by done. by apply Hw1.
      * intros c [= <-]. eexists _, _. rewrite lookup_insert_eq. done.
    + erewrite bind_Raise by apply Hrun. simpl. rewrite Hcl.
      split; [|split; [done|done]].
      intros c' Hne. rewrite lookup_insert_ne by done. by apply Hw1.
  - erewrite bind_Raise by apply Hrun. simpl. rewrite Hcl. split; [done|]. done.
Qed.

Lemma make_conn_loop_heap n : ∀ w,
  let r := Pool.make_conn_loop n w in
  (∀ c', (c' < next_ref w)%nat → heap r.2 !! c' = heap w !! c')
  ∧ closing r.2 = closing w
  ∧ (∀ c, r.1 = Ok c →
       ∃ o s, heap r.2 !! c = Some o ∧ Connection.sock o = Some s
              ∧ Connection.pid o = getpid w).
Proof.
  induction n as [|n IH]; intros w.
  - simpl. done.
  - rewrite make_conn_loop_S. unfold try_except.
    destruct (one_try_cases w) as (Hpid & Hnext & _).
    destruct (one_try_heap w) as (Hh & Hcl & Hobj).
    destruct (one_try w) as [[c|e] w1]; simpl in *.
    + split; [|split; [done|]].
      * intros c' Hc'. apply Hh. lia.
      * intros c0 [= <-]. by apply Hobj.
    + destruct (is_ConnectionError e); simpl.
      * destruct (IH w1) as (Hh' & Hcl' & Hobj').
        split; [|split; [congruence|]].
        -- intros c' Hc'. rewrite Hh' by lia. apply Hh. lia.
        -- intros c0 Hc0. rewrite <- Hpid. by apply Hobj'.
      * split; [|done]. intros c' Hc'. apply Hh. lia.
Qed.

Lemma make_conn_heap w :
  let r := Pool.make_conn w in
  (∀ c', (c' < next_ref w)%nat → heap r.2 !! c' = heap w !! c')
  ∧ closing r.2 = closing w
  ∧ (∀ c, r.1 = Ok c →
       ∃ o s, heap r.2 !! c = Some o ∧ Connection.sock o = Some s
              ∧ Connection.pid o = getpid w).
Proof.
  unfold Pool.make_conn. rewrite (bind_Ok _ _ w (self w) w) by done.
  destruct (_ <=? _)%Z; [done|]. apply make_conn_loop_heap.
Qed.

Lemma make_conn_getpid w : getpid (Pool.make_conn w).2 = getpid w.
Proof.
  unfold Pool.make_conn. rewrite (bind_Ok _ _ w (self w) w) by done.
  destruct (_ <=? _)%Z; [done|].
  by destruct (make_conn_loop_cases 3 w) as (? & _).
Qed.

Lemma check_pid_fork w :
  ConnectionPool.pid (self w) ≠ getpid w →
  Pool._check_pid w =
    match Pool.destroy w with
    | (Ok _, w1) =>
        (Ok tt, log (EvCreated 0) (set_self (restarted (self w) (getpid w1)) w1))
    | (Raise e, w1) => (Raise e, w1)
    end.
Proof.
  intros Hpid. unfold Pool._check_pid.
  rewrite (bind_Ok _ _ w (self w) w) by done.
  rewrite (bind_Ok _ _ w (getpid w) w) by done.
  rewrite decide_False by done.
  unfold mbind at 1, ST_bind, bind.
  destruct (Pool.destroy w) as [[[]|e] w1]; [|done].
  reflexivity.
Qed.

(** X5: after a fork, a [get_connection] that succeeds never hands out a
    connection of the parent: the pool has been started afresh for the
    child, and the connection returned is a new object, connected in the
    child, alone in the in-use set, with nothing idle and
    [_conns_created = 1]. *)
Theorem get_connection_after_fork w conn w' :
  ConnectionPool.pid (self w) ≠ getpid w →
  Pool.get_connection w = (Ok conn, w') →
  (next_ref w ≤ conn)%nat
  ∧ connected w' conn
  ∧ ConnectionPool.pid (self w') = getpid w
  ∧ ConnectionPool._conns_inuse (self w') = {[conn]}
  ∧ ConnectionPool._conns_available (self w') = []
  ∧ created w' = 1%Z.
Proof.
  intros Hpid. unfold Pool.get_connection.
  pose proof (check_pid_fork w Hpid) as Hcheck.
  pose proof (destroy_frame w) as (_ & Hgp & Hnr & _).
  destruct (Pool.destroy w) as [[[]|e] w1]; simpl in Hgp, Hnr;
    [|erewrite bind_Raise by exact Hcheck; done].
  erewrite bind_Ok by exact Hcheck.
  erewrite bind_Ok by reflexivity. simpl.
  set (w2 := log _ _).
  destruct (make_conn_cases w2) as [(c & o & s & Hr & Hrange & Hself & _)|(e & Hr & _)];
    destruct (make_conn_heap w2) as (_ & _ & Hobj);
    pose proof (make_conn_getpid w2) as Hgp2;
    destruct (Pool.make_conn w2) as [r w3] eqn:Hmk; simpl in *; subst r.
  - erewrite bind_Ok by exact Hmk. unfold_M. simpl.
    intros [= <- <-]. simpl. unfold created. simpl. rewrite Hself. simpl.
    split; [lia|]. split; [|split; [done|split; [|done]]].
    + destruct (Hobj c eq_refl) as (o' & s' & Ho' & Hs' & Hp').
      exists o', s'. simpl. repeat split; auto. congruence.
    + apply union_empty_r_L.
  - erewrite bind_Raise by exact Hmk. done.
Qed.

Lemma get_connection_after_fork_witness :
  (2 ≤ 2)%nat
  ∧ connected (Pool.get_connection pool_forked).2 2
  ∧ ConnectionPool.pid (self (Pool.get_connection pool_forked).2) = 101%Z
  ∧ ConnectionPool._conns_inuse (self (Pool.get_connection pool_forked).2) = {[2%nat]}
  ∧ ConnectionPool._conns_available (self (Pool.get_connection pool_forked).2) = []
  ∧ created (Pool.get_connection pool_forked).2 = 1%Z.
Proof.
  apply (get_connection_after_fork pool_forked 2 (Pool.get_connection pool_forked).2).
  - vm_compute. discriminate.
  - vm_compute. reflexivity.
Defined.

Lemma disconnect_pid c w c' o :
  heap w !! c' = Some o →
  ∃ o', heap (Conn.disconnect c w).2 !! c' = Some o'
        ∧ Connection.pid o' = Connection.pid o.
Proof.
  intros Hc'. unfold Conn.disconnect, Conn._errormessage. unfold_M.
  destruct (heap w !! c) as [oc|] eqn:Hc; simpl; [|by exists o].
  destruct (Connection.sock oc); simpl; [|by exists o].
  destruct (closing w) as [|[] cl]; simpl.
  - destruct (decide (c' = c)) as [->|Hne].
    + rewrite lookup_insert_eq. eexists. split; [done|]. simpl. congruence.
    + rewrite lookup_insert_ne by done. by exists o.
  - destruct (decide (c' = c)) as [->|Hne].
    + rewrite lookup_insert_eq. eexists. split; [done|]. simpl. congruence.
    + rewrite lookup_insert_ne by done. by exists o.
  - rewrite Hc. simpl. by exists o.
Qed.

Lemma for_each_disconnect_pid l : ∀ w c' o,
  heap w !! c' = Some o →
  ∃ o', heap (for_each l Conn.disconnect w).2 !! c' = Some o'
        ∧ Connection.pid o' = Connection.pid o.
Proof.
  induction l as [|c l IH]; intros w c' o Hc'; simpl.
  - by exists o.
  - destruct (disconnect_pid c w c' o Hc') as (o1 & Ho1 & Hp1).
    unfold mbind, ST_bind, bind.
    destruct (Conn.disconnect c w) as [[[]|e] w1]; simpl in *.
    + destruct (IH w1 c' o1 Ho1) as (o2 & Ho2 & Hp2).
      exists o2. split; [done|congruence].
    + by exists o1.
Qed.

Lemma destroy_pid w c' o :
  heap w !! c' = Some o →
  ∃ o', heap (Pool.destroy w).2 !! c' = Some o'
        ∧ Connection.pid o' = Connection.pid o.
Proof.
  intros Hc'. unfold Pool.destroy.
  rewrite (bind_Ok _ _ w (self w) w) by done.
  by apply for_each_disconnect_pid.
Qed.

(** X6: in the child of a fork, when every socket closes, [_check_pid]
    closes the socket of every connection of the pool and starts the pool
    afresh for the child; a [release] of a connection made in the parent
    then succeeds without a word and puts nothing back: the pool stays
    empty. *)
Theorem release_after_fork conn o w :
  ConnectionPool.pid (self w) ≠ getpid w →
  closes_ok w → pool_on_heap w →
  heap w !! conn = Some o → Connection.pid o ≠ getpid w →
  let r := Pool.release conn w in
  self (Pool._check_pid w).2 = restarted (self w) (getpid w)
  ∧ r.1 = Ok tt
  ∧ self r.2 = restarted (self w) (getpid w)
  ∧ (∀ c, pooled w c → closed r.2 c).
Proof.
  intros Hpid Hcl Hheap Hc Ho.
  pose proof (check_pid_fork w Hpid) as Hcheck.
  destruct (destroy_ok w Hcl Hheap) as (Hr & Hs & Hgp & _ & _ & _ & Hall & _).
  destruct (destroy_pid w conn o Hc) as (o' & Ho' & Hp').
  destruct (Pool.destroy w) as [r1 w1]. simpl in *. subst r1.
  rewrite Hcheck. simpl. rewrite ?Hs, ?Hgp. split; [done|].
  unfold Pool.release.
  erewrite bind_Ok by exact Hcheck.
  erewrite bind_Ok by (unfold deref; simpl; by rewrite Ho').
  erewrite bind_Ok by reflexivity. simpl.
  rewrite decide_False by congruence. simpl.
  rewrite ?Hs, ?Hgp. done.
Qed.

Lemma release_after_fork_witness :
  (Pool.release 1 pool_forked).1 = Ok tt
  ∧ self (Pool.release 1 pool_forked).2 = restarted (self pool_forked) 101
  ∧ closed (Pool.release 1 pool_forked).2 0
  ∧ closed (Pool.release 1 pool_forked).2 1.
Proof.
  destruct (release_after_fork 1
              {| Connection.pid := 100; Connection.host_tuple := tracker_kwargs.1;
                 Connection.timeout := 30; Connection.remote_addr := Some "192.168.0.11"%string;
                 Connection.remote_port := Some 22122%Z;
                 Connection.sock := Some {| peer_addr := "192.168.0.11"; peer_port := 22122 |} |}
              pool_forked) as (_ & H1 & H2 & H3).
  - vm_compute. discriminate.
  - intros b Hb. vm_compute in Hb. inversion Hb.
  - assert (ConnectionPool._conns_inuse (self pool_forked) = {[1%nat]}) as Hin
      by (vm_compute; reflexivity).
    assert (ConnectionPool._conns_available (self pool_forked) = [0%nat]) as Hav
      by (vm_compute; reflexivity).
    intros c [Hc|Hc].
    + rewrite Hin in Hc. apply elem_of_singleton in Hc as ->. vm_compute. eauto.
    + rewrite Hav in Hc. apply list_elem_of_singleton in Hc as ->. vm_compute. eauto.
  - vm_compute. reflexivity.
  - vm_compute. discriminate.
  - split; [exact H1|]. split; [exact H2|]. split; apply H3.
    + right. vm_compute. left.
    + left. vm_compute. reflexivity.
Defined.

Lemma disconnect_run c o w :
  heap w !! c = Some o →
  Conn.disconnect c w =
    match Connection.sock o with
    | None => (Ok tt, w)
    | Some _ =>
        match closing w with
        | false :: rest =>
            (Raise (ConnectionError
                      (ErrorMessage (Connection.remote_addr o) (Connection.remote_port o))),
             log (EvClose false) (set_closing rest w))
        | true :: rest =>
            (Ok tt, set_heap (<[c := Connection.with_sock None o]> (heap w))
                      (log (EvClose true) (set_closing rest w)))
        | [] =>
            (Ok tt, set_heap (<[c := Connection.with_sock None o]> (heap w))
                      (log (EvClose true) w))
        end
    end.
Proof.
  intros Hc. unfold Conn.disconnect.
  rewrite (bind_Ok _ _ w o w) by (by unfold deref; rewrite Hc).
  destruct (Connection.sock o); [|done].
  unfold next_close, Conn._errormessage. unfold_M.
  destruct (closing w) as [|[] cl]; simpl; try done.
  by rewrite Hc.
Qed.

(** X7: [disconnect] on a connection without a socket does nothing;
    when [sock.close()] fails it raises [ConnectionError] and the
    connection keeps its socket; and calling [disconnect] twice in a row
    has the very effect of calling it once. *)
Theorem disconnect_idempotent c w :
  (∀ o, heap w !! c = Some o → Connection.sock o = None →
        Conn.disconnect c w = (Ok tt, w))
  ∧ (∀ o s rest, heap w !! c = Some o → Connection.sock o = Some s →
        closing w = false :: rest →
        (Conn.disconnect c w).1
        = Raise (ConnectionError
                   (ErrorMessage (Connection.remote_addr o) (Connection.remote_port o)))
        ∧ heap (Conn.disconnect c w).2 !! c = Some o)
  ∧ (Conn.disconnect c;; Conn.disconnect c) w = Conn.disconnect c w.
Proof.
  split; [|split].
  - intros o Hc Hs. rewrite (disconnect_run c o w Hc). by rewrite Hs.
  - intros o s rest Hc Hs Hcl. rewrite (disconnect_run c o w Hc). rewrite Hs, Hcl. done.
  - destruct (heap w !! c) as [o|] eqn:Hc.
    + pose proof (disconnect_run c o w Hc) as Hrun.
      destruct (Connection.sock o) as [s|] eqn:Hs.
      * destruct (closing w) as [|[] cl].
        -- erewrite bind_Ok by exact Hrun. rewrite Hrun.
           erewrite disconnect_run by apply lookup_insert_eq. done.
        -- erewrite bind_Ok by exact Hrun. rewrite Hrun.
           erewrite disconnect_run by apply lookup_insert_eq. done.
        -- erewrite bind_Raise by exact Hrun. done.
      * erewrite bind_Ok by exact Hrun. done.
    + assert (Conn.disconnect c w = (Raise AttributeError, w)) as Hrun.
      { unfold Conn.disconnect, deref, mbind, ST_bind, bind. by rewrite Hc. }
      erewrite bind_Raise by exact Hrun. done.
Qed.

Lemma disconnect_idempotent_witness :
  Conn.disconnect 0 (one_connection []) = (Ok tt, one_connection [])
  ∧ (Conn.disconnect 0 stuck_connection).1
    = Raise (ConnectionError (ErrorMessage (Some "192.168.0.11"%string) (Some 22122%Z)))
  ∧ Connection.sock <$> heap (Conn.disconnect 0 stuck_connection).2 !! 0%nat
    = Some (Some {| peer_addr := "192.168.0.11"; peer_port := 22122 |}).
Proof.
  split.
  - eapply (proj1 (disconnect_idempotent 0 (one_connection []))).
    + vm_compute. reflexivity.
    + reflexivity.
  - destruct (proj1 (proj2 (disconnect_idempotent 0 stuck_connection))
               {| Connection.pid := 100; Connection.host_tuple := tracker_kwargs.1;
                  Connection.timeout := 30;
                  Connection.remote_addr := Some "192.168.0.11"%string;
                  Connection.remote_port := Some 22122%Z;
                  Connection.sock :=
                    Some {| peer_addr := "192.168.0.11"; peer_port := 22122 |} |}
               {| peer_addr := "192.168.0.11"; peer_port := 22122 |} [])
      as [H1 H2].
    + vm_compute. reflexivity.
    + reflexivity.
    + vm_compute. reflexivity.
    + split; [exact H1|]. exact (f_equal (fmap Connection.sock) H2).
Defined.

(** X8: when [socket.create_connection] refuses, [connect] raises a
    [ConnectionError] naming the endpoint it drew; the connection still
    has no socket but remembers that endpoint in [remote_addr] and
    [remote_port], and the next [connect] draws again. *)
Theorem connect_refused c o a rest addr port w :
  heap w !! c = Some o → Connection.sock o = None →
  network w = a :: rest → reachable a = false →
  Connection.host_tuple o !! (pick a mod length (Connection.host_tuple o))%nat
  = Some (addr, port) →
  let r := Conn.connect c w in
  r.1 = Raise (ConnectionError (ErrorMessage (Some addr) (Some port)))
  ∧ heap r.2 !! c = Some (Connection.with_remote addr port o)
  ∧ network r.2 = rest
  ∧ trace r.2 = trace w ++ [EvConnect addr port false].
Proof.
  intros Hc Hs Hnet Ha Hl.
  assert (next_attempt w = (Ok a, set_network rest w)) as Hna
    by (unfold next_attempt; by rewrite Hnet).
  pose proof (connect_run c o w a _ Hc Hs Hna eq_refl) as Hrun.
  rewrite Hl, Ha in Hrun. simpl in Hrun. rewrite Hrun. simpl.
  repeat split; auto. apply lookup_insert_eq.
Qed.

Lemma connect_refused_witness :
  (Conn.connect 0 (one_connection [down 1; up 0])).1
  = Raise (ConnectionError (ErrorMessage (Some "192.168.0.11"%string) (Some 22122%Z)))
  ∧ network (Conn.connect 0 (one_connection [down 1; up 0])).2 = [up 0].
Proof.
  destruct (connect_refused 0
              {| Connection.pid := 100; Connection.host_tuple := tracker_kwargs.1;
                 Connection.timeout := 30; Connection.remote_addr := None;
                 Connection.remote_port := None; Connection.sock := None |}
              (down 1) [up 0] "192.168.0.11"%string 22122%Z
              (one_connection [down 1; up 0])) as (H1 & _ & H3 & _).
  - vm_compute. reflexivity.
  - reflexivity.
  - reflexivity.
  - reflexivity.
  - reflexivity.
  - split; [exact H1|exact H3].
Defined.

(** X9: [make_conn] calls [socket.create_connection] at most three
    times, every call but the last one a failure; it ends with
    [_conns_created] grown by exactly one after a success, and with the
    pool object untouched after any failure. *)
Theorem make_conn_attempts w :
  let r := Pool.make_conn w in
  let attempts := connects (new_events Pool.make_conn w) in
  (length attempts ≤ 3)%nat
  ∧ match r.1 with
    | Ok _ => (∃ k, attempts = replicate k false ++ [true])
              ∧ created r.2 = (created w + 1)%Z
    | Raise _ => (∃ k, attempts = replicate k false) ∧ self r.2 = self w
    end.
Proof.
  unfold created. cbv zeta.
  assert (∃ evs, trace (Pool.make_conn w).2 = trace w ++ evs ∧
            (length (connects evs) ≤ 3)%nat ∧
            match (Pool.make_conn w).1 with
            | Ok _ => (∃ k, connects evs = replicate k false ++ [true])
                      ∧ ConnectionPool._conns_created (self (Pool.make_conn w).2)
                        = (ConnectionPool._conns_created (self w) + 1)%Z
            | Raise _ => (∃ k, connects evs = replicate k false)
                         ∧ self (Pool.make_conn w).2 = self w
            end) as (evs & Htr & Hlen & Hres).
  { destruct (Z.leb_spec (ConnectionPool.max_conn (self w))
                (ConnectionPool._conns_created (self w))) as [Hcap|Hcap].
    - rewrite make_conn_full by done. exists []. simpl. rewrite app_nil_r.
      split; [done|]. split; [lia|]. split; [by exists 0%nat|done].
    - rewrite make_conn_not_full by done.
      destruct (make_conn_loop_cases 3 w) as (_ & _ & evs & Htr & Hcases).
      exists evs. split; [done|].
      destruct Hcases as [(c & o & s & k & -> & _ & Hself & _ & _ & Hk & Hcon & _)
                         |[(-> & Hself & Hcon & _)|(k & -> & Hself & Hk & Hcon & _)]];
        rewrite Hcon.
      + rewrite length_app, length_replicate. cbn [length]. split; [lia|].
        split; [by exists k|]. by rewrite Hself.
      + rewrite length_replicate. split; [lia|]. split; [by exists 3%nat|done].
      + rewrite length_replicate. split; [lia|]. split; [by exists k|done]. }
  rewrite (new_events_app _ _ _ Htr). done.
Qed.

Lemma one_try_no_hosts w :
  (ConnectionPool.conn_kwargs (self w)).1 = [] →
  ∃ w1, one_try w = (Raise IndexError, w1)
        ∧ self w1 = self w ∧ trace w1 = trace w ∧ next_ref w1 = S (next_ref w).
Proof.
  intros Hhosts. unfold one_try.
  rewrite (bind_Ok _ _ w (self w) w) by done.
  erewrite bind_Ok by reflexivity.
  set (o := {| Connection.pid := getpid w |}).
  set (w0 := set_next_ref _ _).
  destruct (next_attempt_Ok w0) as (a & w1 & Ha & Hself & Hpid & Hheap & Hnext & Htr & _).
  assert (Hc : heap w0 !! next_ref w = Some o) by apply lookup_insert_eq.
  pose proof (connect_run (next_ref w) o w0 a w1 Hc eq_refl Ha Hheap) as Hrun.
  assert (Connection.host_tuple o = []) as Hempty by (unfold o; simpl; done).
  rewrite Hempty in Hrun. simpl in Hrun.
  erewrite bind_Raise by exact Hrun.
  exists w1. rewrite Hself, Htr, Hnext. done.
Qed.

(** X10: with an empty [host_tuple] a pool that is not full fails in
    [make_conn] with the [IndexError] of [random.choice], not with
    [ConnectionError]: nothing is tried on the network, there is no
    second try, and the pool object is untouched. *)
Theorem make_conn_no_hosts w :
  (ConnectionPool.conn_kwargs (self w)).1 = [] →
  (ConnectionPool._conns_created (self w) < ConnectionPool.max_conn (self w))%Z →
  let r := Pool.make_conn w in
  r.1 = Raise IndexError ∧ self r.2 = self w ∧ trace r.2 = trace w
  ∧ next_ref r.2 = S (next_ref w).
Proof.
  intros Hhosts Hcap. cbv zeta.
  rewrite make_conn_not_full by done.
  change (Pool.make_conn_loop 3) with (Pool.make_conn_loop (S 2)).
  rewrite make_conn_loop_S. unfold try_except.
  destruct (one_try_no_hosts w Hhosts) as (w1 & -> & ? & ? & ?). done.
Qed.

Lemma make_conn_no_hosts_witness :
  (Pool.make_conn pool_without_hosts).1 = Raise IndexError
  ∧ self (Pool.make_conn pool_without_hosts).2 = self pool_without_hosts
  ∧ trace (Pool.make_conn pool_without_hosts).2 = trace pool_without_hosts
  ∧ next_ref (Pool.make_conn pool_without_hosts).2 = 1%nat.
Proof.
  apply (make_conn_no_hosts pool_without_hosts).
  - reflexivity.
  - vm_compute. reflexivity.
Defined.

(** X11: from a pool built by [__init__] with a capacity that is not
    negative, after every sequence of [get_connection], [release] and
    [remove] calls and forks, no connection is idle and in use at once,
    no connection is idle twice, and the connections in use and the idle
    ones each number at most [max_conn]. *)
Theorem pool_exclusive name max_conn debug kwargs pid net cl ops :
  (∀ n, max_conn = Some n → (0 ≤ n)%Z) →
  let w := run ops (new_pool name max_conn debug kwargs (boot pid net cl)) in
  NoDup (ConnectionPool._conns_available (self w))
  ∧ (∀ c, c ∈ ConnectionPool._conns_available (self w) →
          c ∉ ConnectionPool._conns_inuse (self w))
  ∧ (Z.of_nat (size (ConnectionPool._conns_inuse (self w)))
     ≤ ConnectionPool.max_conn (self w))%Z
  ∧ (Z.of_nat (length (ConnectionPool._conns_available (self w)))
     ≤ ConnectionPool.max_conn (self w))%Z.
Proof.
  intros Hmax w.
  pose proof (new_pool_inv name max_conn debug kwargs pid net cl Hmax) as Hinv.
  apply (run_inv _ ops) in Hinv. fold w in Hinv.
  destruct Hinv as (Hrest & [Hle _] & _ & Hnd & Hdisj & _ & _).
  unfold at_rest in Hrest. repeat split; auto; lia.
Qed.

Lemma pool_exclusive_witness :
  let w := run pool_ops_example (tracker_pool [up 0; up 1; up 0]) in
  NoDup (ConnectionPool._conns_available (self w))
  ∧ (∀ c, c ∈ ConnectionPool._conns_available (self w) →
          c ∉ ConnectionPool._conns_inuse (self w))
  ∧ (Z.of_nat (size (ConnectionPool._conns_inuse (self w)))
     ≤ ConnectionPool.max_conn (self w))%Z
  ∧ (Z.of_nat (length (ConnectionPool._conns_available (self w)))
     ≤ ConnectionPool.max_conn (self w))%Z.
Proof.
  apply (pool_exclusive "Tracker Pool" (Some 2%Z) false tracker_kwargs 100
           [up 0; up 1; up 0] [] pool_ops_example).
  intros n [= <-]. lia.
Defined.

Lemma make_conn_fresh w c :
  (Pool.make_conn w).1 = Ok c → (next_ref w ≤ c < next_ref (Pool.make_conn w).2)%nat.
Proof.
  destruct (Z.leb_spec (ConnectionPool.max_conn (self w))
              (ConnectionPool._conns_created (self w))) as [Hcap|Hcap].
  - rewrite make_conn_full by done. done.
  - rewrite make_conn_not_full by done.
    destruct (make_conn_loop_cases 3 w) as (_ & _ & evs & _ & Hcases).
    destruct Hcases as [(c' & o & s & k & -> & Hrange & _)
                       |[(-> & _)|(k & -> & _)]]; [|done|done].
    by intros [= <-].
Qed.

Lemma make_conn_next_ref w : (next_ref w ≤ next_ref (Pool.make_conn w).2)%nat.
Proof.
  destruct (Z.leb_spec (ConnectionPool.max_conn (self w))
              (ConnectionPool._conns_created (self w))) as [Hcap|Hcap].
  - rewrite make_conn_full by done. done.
  - rewrite make_conn_not_full by done.
    by destruct (make_conn_loop_cases 3 w) as (_ & ? & _).
Qed.

Lemma all_connected_get w : all_connected w → all_connected (Pool.get_connection w).2.
Proof.
  intros [Hpid Hall]. unfold Pool.get_connection.
  erewrite bind_Ok by (by apply check_pid_same).
  erewrite bind_Ok by reflexivity.
  destruct (pop (ConnectionPool._conns_available (self w))) as [[rest conn]|] eqn:Hpop.
  - apply pop_Some in Hpop. unfold_M. simpl.
    split; [done|]. intros c Hc. unfold connected. simpl.
    apply Hall. unfold pooled in *. simpl in Hc. rewrite Hpop.
    destruct Hc as [Hc|Hc].
    + apply elem_of_union in Hc as [Hc|Hc]; [|by left].
      apply elem_of_singleton in Hc as ->. right.
      apply elem_of_app. right. by apply list_elem_of_singleton.
    + right. apply elem_of_app. by left.
  - pose proof (make_conn_getpid w) as Hgp.
    pose proof (make_conn_next_ref w) as Hnr.
    pose proof (make_conn_fresh w) as Hfresh.
    destruct (make_conn_heap w) as (Hheap & _ & Hobj).
    destruct (make_conn_cases w) as [(c & o & s & Hr & _ & Hself & _)|(e & Hr & Hself)];
      destruct (Pool.make_conn w) as [r w1] eqn:Hmk; simpl in *; subst r.
    + erewrite bind_Ok by exact Hmk. unfold add_inuse. unfold_M. simpl.
      rewrite Hself. unfold all_connected. simpl. split; [congruence|].
      intros x Hx. unfold pooled in Hx. simpl in Hx.
      assert (x = c ∨ pooled w x) as [->|Hpx].
      { destruct Hx as [Hx|Hx]; [|right; by right].
        apply elem_of_union in Hx as [Hx|Hx]; [|right; by left].
        apply elem_of_singleton in Hx. by left. }
      * split; [|by apply Hfresh].
        destruct (Hobj c eq_refl) as (o' & s' & Ho' & Hs' & Hp').
        exists o', s'. simpl. repeat split; auto. congruence.
      * destruct (Hall x Hpx) as [(o' & s' & Ho' & Hs' & Hp') Hlt].
        split; [|lia]. exists o', s'. simpl. rewrite Hheap by done.
        repeat split; auto. congruence.
    + erewrite bind_Raise by exact Hmk. simpl.
      unfold all_connected. rewrite Hself. split; [congruence|].
      intros x Hx. assert (pooled w x) as Hpx by (unfold pooled in *; by rewrite <- Hself).
      destruct (Hall x Hpx) as [(o' & s' & Ho' & Hs' & Hp') Hlt].
      split; [|lia]. exists o', s'. rewrite Hheap by done.
      repeat split; auto. congruence.
Qed.

Lemma all_connected_release conn w :
  all_connected w → all_connected (Pool.release conn w).2.
Proof.
  intros [Hpid Hall].
  destruct (heap w !! conn) as [o|] eqn:Hc.
  - rewrite (release_run conn o w Hpid Hc).
    destruct (decide _); [|done].
    destruct (decide _); [|done].
    simpl. split; [done|]. intros c Hc'. unfold connected. simpl.
    apply Hall. unfold pooled in *. simpl in Hc'.
    destruct Hc' as [Hc'|Hc'].
    + left. set_solver.
    + apply elem_of_app in Hc' as [Hc'|Hc']; [by right|].
      apply list_elem_of_singleton in Hc' as ->. by left.
  - unfold Pool.release.
    erewrite bind_Ok by (by apply check_pid_same).
    erewrite bind_Raise by (unfold deref; by rewrite Hc). done.
Qed.

Lemma all_connected_remove conn w :
  all_connected w → all_connected (Pool.remove conn w).2.
Proof.
  intros [Hpid Hall]. unfold Pool.remove. unfold_M. simpl.
  destruct (decide (conn ∈ _)) as [Hin|Hin]; simpl;
    destruct (decide (conn ∈ _)) as [Hav|Hav]; simpl;
    (split; [done|]); intros c Hc; unfold connected; simpl;
    apply Hall; unfold pooled in *; simpl in Hc;
    (destruct Hc as [Hc|Hc]; [left; set_solver|right]);
    eauto using remove_first_elem.
Qed.

Lemma get_connection_in_use w conn w' :
  Pool.get_connection w = (Ok conn, w') →
  conn ∈ ConnectionPool._conns_inuse (self w').
Proof.
  unfold Pool.get_connection.
  destruct (Pool._check_pid w) as [[[]|e] w1] eqn:Hcheck;
    [|erewrite bind_Raise by exact Hcheck; done].
  erewrite bind_Ok by exact Hcheck.
  erewrite bind_Ok by reflexivity.
  destruct (pop (ConnectionPool._conns_available (self w1))) as [[rest c]|].
  - unfold_M. simpl. intros [= <- <-]. simpl. set_solver.
  - destruct (Pool.make_conn w1) as [[c|e] w2] eqn:Hmk.
    + erewrite bind_Ok by exact Hmk. unfold add_inuse. unfold_M. simpl.
      intros [= <- <-]. simpl. set_solver.
    + erewrite bind_Raise by exact Hmk. done.
Qed.

(** X12: while the process does not fork, the pool belongs to the
    process and each of its connections, in use or idle, is an object
    made in this process that has its socket, whatever the network did;
    so every connection [get_connection] hands out is connected. *)
Theorem single_process_connected name max_conn debug kwargs pid net cl ops :
  forallb (λ o, negb (is_fork o)) ops = true →
  let w := run ops (new_pool name max_conn debug kwargs (boot pid net cl)) in
  all_connected w
  ∧ ∀ conn w', Pool.get_connection w = (Ok conn, w') → connected w' conn.
Proof.
  intros Hops w.
  assert (all_connected w) as Hall.
  { unfold w. clear w.
    assert (all_connected (new_pool name max_conn debug kwargs (boot pid net cl))) as H0.
    { unfold new_pool, Pool.__init__. unfold_M. simpl. split; [done|].
      intros c [Hc|Hc]; simpl in Hc; [set_solver|by apply elem_of_nil in Hc]. }
    revert H0. generalize (new_pool name max_conn debug kwargs (boot pid net cl)).
    induction ops as [|o ops IH]; intros w0 H0; simpl; [done|].
    simpl in Hops. apply andb_true_iff in Hops as [Ho Hops].
    apply IH; [done|].
    destruct o as [|conn|conn|child]; simpl; [| | |done].
    - by apply all_connected_get.
    - by apply all_connected_release.
    - by apply all_connected_remove. }
  split; [done|].
  intros conn w' Hget.
  pose proof (all_connected_get w Hall) as [_ Hall'].
  rewrite Hget in Hall'. simpl in Hall'.
  apply Hall'. left. by eapply get_connection_in_use.
Qed.

Lemma single_process_connected_witness :
  let w := run busy_ops (tracker_pool [up 0; down 0; up 1]) in
  all_connected w
  ∧ ∀ conn w', Pool.get_connection w = (Ok conn, w') → connected w' conn.
Proof.
  apply (single_process_connected "Tracker Pool" (Some 2%Z) false tracker_kwargs 100
           [up 0; down 0; up 1] [] busy_ops).
  reflexivity.
Defined.

(** * Further properties of tcp_recv_response *)




(** * Further properties of the client facade *)

Ltac facade_unfold :=
  unfold perform,
    Facade.upload_by_filename, Facade.upload_by_file, Facade.upload_by_buffer,
    Facade.upload_slave_by_filename, Facade.upload_slave_by_file,
    Facade.upload_slave_by_buffer, Facade.upload_appender_by_filename,
    Facade.upload_appender_by_file, Facade.upload_appender_by_buffer,
    Facade.delete_file, Facade.download_to_file, Facade.download_to_buffer,
    Facade.get_meta_data, Facade.set_meta_data, Facade.append_by_filename,
    Facade.append_by_file, Facade.append_by_buffer, Facade.truncate_file,
    Facade.modify_by_filename, Facade.modify_by_file, Facade.modify_by_buffer,
    Facade.get_storage;
  unfold local, os;
  unfold mbind, mret, ST_bind, ST_ret, bind, ret, raise, gets, modify,
    Facade.tracker_call, Facade.storage_call, Facade.set_metadata_call,
    new_Storage_client, set_storages, record.





Lemma app_cons_self {A} (l l' : list A) x : l = l ++ x :: l' → False.
Proof.
  intros H. apply (f_equal length) in H. rewrite length_app in H. simpl in H. lia.
Qed.

Ltac facade_case_eq :=
  match goal with
  | |- context [fdfs_check_file ?env ?f] =>
      destruct (fdfs_check_file env f) as [[] ?]
  | |- context [buffer_true ?b] => destruct (buffer_true b)
  | |- context [string_true ?p] => destruct (string_true p)
  | |- context [split_remote_fileid ?r] =>
      destruct (split_remote_fileid r) as [[? ?]|]
  | |- context [(?o =? 0)%Z] => destruct (o =? 0)%Z
  | |- context [match tracker ?env ?h ?q with _ => _ end] =>
      destruct (tracker env h q) as [?|?] eqn:?
  | |- context [match storages ?s !! ?k with _ => _ end] =>
      destruct (storages s !! k) as [?|] eqn:?
  | |- context [match storage_set_metadata ?env ?h ?st ?sv ?f ?m with _ => _ end] =>
      destruct (storage_set_metadata env h st sv f m) as [?|?] eqn:?
  | |- context [match storage ?env ?h ?st ?req with _ => _ end] =>
      destruct (storage env h st req) as [?|?] eqn:?
  end; cbn [negb fst snd calls].

Ltac calls_inv H :=
  cbn [calls snd] in H; rewrite <- ?(assoc_L (++)) in H;
  first [ apply app_cons_self in H; destruct H
        | apply app_inv_head in H; simplify_eq/= ].

(** X16: when the tracker answers a query with an error, the operation
    raises that very error; no storage node is called, no Storage_client
    is made or cached, and the client only remembers the query. *)
Theorem tracker_failure env op s q e l :
  calls (perform env op s).2 = calls s ++ TrackerCall q :: l →
  tracker env (calls s) q = Raise e →
  perform env op s = (Raise e, record (TrackerCall q) s).
Proof.
  destruct op; facade_unfold; cbn [negb fst snd calls];
    repeat facade_case_eq; intros H Htr; calls_inv H;
    congruence.
Qed.

Lemma tracker_failure_witness :
  perform failing_env (Delete_file file_id) new_client
  = (Raise (ResponseError "[-] Error: 2"),
     record (TrackerCall (tracker_query_storage_update "group1" "M00/00/00/wKgAFF.txt"))
       new_client).
Proof.
  apply (tracker_failure failing_env (Delete_file file_id) new_client _ _ []).
  - reflexivity.
  - reflexivity.
Defined.

Ltac facade_case_status :=
  match goal with
  | |- context [fdfs_check_file ?env ?f] =>
      destruct (fdfs_check_file env f) as [[] ?]
  | |- context [buffer_true ?b] => destruct (buffer_true b)
  | |- context [string_true ?p] => destruct (string_true p)
  | |- context [split_remote_fileid ?r] =>
      destruct (split_remote_fileid r) as [[? ?]|]
  | |- context [(?o =? 0)%Z] => destruct (o =? 0)%Z eqn:?
  | |- context [match tracker ?env ?h ?q with _ => _ end] =>
      destruct (tracker env h q) as [?|?] eqn:?
  | |- context [match storages ?s !! ?k with _ => _ end] =>
      destruct (storages s !! k) as [?|] eqn:?
  | |- context [match storage_set_metadata ?env ?h ?st ?sv ?f ?m with _ => _ end] =>
      destruct (storage_set_metadata env h st sv f m) as [?|?] eqn:?
  | |- context [match storage ?env ?h ?st ?req with _ => _ end] =>
      destruct (storage env h st req) as [?|?] eqn:?
  end; cbn [negb fst snd calls].

(** X17: the answer of the storage node decides what the caller of the
    operation gets, whichever operation it is.  A record or an error
    answered to a request is handed on unchanged, but for the two slave
    uploads by file, which put their own status into the record.  The
    status answered to [set_meta_data] is not handed on: for status 0 the
    caller gets a record made by the facade, for any other status the
    [NameError] of the missing [os], and an error is handed on unchanged.
    The second call of an operation is never a tracker query. *)
Theorem storage_answer env op s q c :
  calls (perform env op s).2 = calls s ++ [TrackerCall q; c] →
  match c with
  | StorageCall store req =>
      (perform env op s).1
      = relayed op (storage env (calls s ++ [TrackerCall q]) store req)
  | SetMetadataCall store store_serv remote_filename meta_dict =>
      (perform env op s).1
      = status_relayed store_serv
          (storage_set_metadata env (calls s ++ [TrackerCall q])
             store store_serv remote_filename meta_dict)
  | TrackerCall _ => False
  end.
Proof.
  destruct op; facade_unfold; cbn [negb fst snd calls relayed];
    repeat facade_case_status; intros H; calls_inv H;
    cbn [fst]; unfold status_relayed;
    repeat match goal with
           | Heq : _ = _ |- _ => rewrite Heq
           end;
    congruence.
Qed.

Lemma storage_answer_witness :
  (perform refusing_env (Upload_by_buffer (Some hello) (Some "txt"%string) None) new_client).1
  = Raise (DataError "[-] Error: 22")
  ∧ (perform demo_env (Set_meta_data file_id None "O") new_client).1
    = Raise (NameError "os").
Proof.
  split.
  - apply (storage_answer refusing_env
             (Upload_by_buffer (Some hello) (Some "txt"%string) None) new_client
             tracker_query_storage_stor_without_group
             (StorageCall 0%nat
                (storage_upload_by_buffer storage_node (Some hello) (Some "txt"%string) None))).
    reflexivity.
  - apply (storage_answer demo_env (Set_meta_data file_id None "O") new_client
             (tracker_query_storage_update "group1" "M00/00/00/wKgAFF.txt")
             (SetMetadataCall 0%nat storage_node "M00/00/00/wKgAFF.txt" None)).
    reflexivity.
Defined.

Lemma cache_ok_same s s' :
  cache_ok s → storages s' = storages s → objects s' = objects s →
  next_object s' = next_object s → cache_ok s'.
Proof. intros Hok Hs Ho Hn ip p store. rewrite Hs, Ho, Hn. apply Hok. Qed.

Lemma cache_ok_new s s' o :
  cache_ok s → storages s' = storages s →
  objects s' = <[next_object s := o]> (objects s) →
  next_object s' = S (next_object s) → cache_ok s'.
Proof.
  intros Hok Hs Ho Hn ip p store. rewrite Hs, Ho, Hn. intros Hl.
  destruct (Hok ip p store Hl) as [Hlt [t Ht]].
  split; [lia|]. exists t. rewrite lookup_insert_ne by lia. done.
Qed.

Lemma cache_ok_cached s s' ip p t :
  cache_ok s →
  storages s' = <[(ip, p) := next_object s]> (storages s) →
  objects s' = <[next_object s := {| sc_ip_addr := ip; sc_port := p; sc_timeout := t |}]>
                 (objects s) →
  next_object s' = S (next_object s) → cache_ok s'.
Proof.
  intros Hok Hs Ho Hn ip' p' store. rewrite Hs, Ho, Hn. intros Hl.
  apply lookup_insert_Some in Hl as [[[= <- <-] <-]|[Hne Hl]].
  - split; [lia|]. exists t. by rewrite lookup_insert_eq.
  - destruct (Hok ip' p' store Hl) as [Hlt [t' Ht']].
    split; [lia|]. exists t'. rewrite lookup_insert_ne by lia. done.
Qed.

Lemma perform_cache_ok env op s : cache_ok s → cache_ok (perform env op s).2.
Proof.
  destruct op; facade_unfold; cbn [negb fst snd calls];
    repeat facade_case_eq; intros Hok;
    first [ by eapply cache_ok_same
          | by eapply cache_ok_new
          | by eapply cache_ok_cached ].
Qed.

(** X18: whatever operations a client has performed, every entry of
    [self.storages] names a Storage_client object that was built for the
    very endpoint the entry is filed under, and two different endpoints
    never share an object. *)
Theorem storages_cache_sound env t ops :
  let s := perform_all env ops (client t) in
  cache_ok s
  ∧ ∀ k1 k2 store, storages s !! k1 = Some store → storages s !! k2 = Some store →
      k1 = k2.
Proof.
  intros s.
  assert (cache_ok s) as Hok.
  { unfold s. clear s.
    assert (cache_ok (client t)) as H0 by (intros ip p store; simpl; by rewrite lookup_empty).
    revert H0. generalize (client t).
    induction ops as [|op ops IH]; intros s H0; simpl; [done|].
    apply IH. by apply perform_cache_ok. }
  split; [done|].
  intros [ip1 p1] [ip2 p2] store H1 H2.
  destruct (Hok ip1 p1 store H1) as [_ [t1 Ht1]].
  destruct (Hok ip2 p2 store H2) as [_ [t2 Ht2]].
  congruence.
Qed.

(** X19: an upload or a delete runs on the Storage_client that
    [self.storages] holds for the endpoint the tracker named, making and
    filing one only when there is none; every other operation runs on a
    Storage_client made for the occasion and files nothing. *)
Theorem storage_client_choice env op s q c store store_serv :
  calls (perform env op s).2 = calls s ++ [TrackerCall q; c] →
  call_store c = Some store →
  tracker env (calls s) q = Ok store_serv →
  let s' := (perform env op s).2 in
  let endpoint := (ip_addr store_serv, port store_serv) in
  if uses_get_storage op
  then storages s' !! endpoint = Some store
       ∧ match storages s !! endpoint with
         | Some cached =>
             store = cached ∧ storages s' = storages s ∧ objects s' = objects s
         | None => store = next_object s
         end
  else store = next_object s ∧ storages s' = storages s
       ∧ objects s' !! store
         = Some {| sc_ip_addr := ip_addr store_serv; sc_port := port store_serv;
                   sc_timeout := timeout s |}.
Proof.
  destruct op; facade_unfold; cbn [negb fst snd calls uses_get_storage];
    repeat facade_case_eq; intros H Hst Htr; calls_inv H;
    cbn [storages objects];
    repeat match goal with
           | H1 : ?x = _, H2 : ?x = _ |- _ => rewrite H1 in H2; simplify_eq/=
           end;
    rewrite ?lookup_insert_eq;
    repeat match goal with
           | H1 : storages s !! _ = _ |- _ => rewrite H1
           end;
    done.
Qed.

Lemma storage_client_choice_witness :
  let s := (perform demo_env (Delete_file file_id) new_client).2 in
  storages (perform demo_env (Upload_by_buffer (Some hello) None None) s).2
    !! ("192.168.0.20"%string, 23000%Z) = Some 0%nat
  ∧ objects (perform demo_env (Upload_by_buffer (Some hello) None None) s).2 = objects s.
Proof.
  intros s.
  pose proof (storage_client_choice demo_env (Upload_by_buffer (Some hello) None None) s
                tracker_query_storage_stor_without_group
                (StorageCall 0 (storage_upload_by_buffer storage_node (Some hello) None None))
                0%nat storage_node eq_refl eq_refl eq_refl) as H.
  cbv zeta in H. cbn [uses_get_storage] in H.
  destruct H as [H1 H2]. split; [exact H1|].
  change (storages s !! (ip_addr storage_node, port storage_node)) with (Some 0%nat) in H2.
  apply H2.
Defined.

Lemma invalid_input_rejected_witness :
  ∃ msg, perform demo_env (Append_by_buffer (Some []) file_id) new_client
         = (Raise (DataError msg), new_client).
Proof.
  apply (invalid_input_rejected demo_env (Append_by_buffer (Some []) file_id) new_client).
  - reflexivity.
  - reflexivity.
Defined.

Lemma download_whole_file_witness :
  storage_requests
    (calls (Facade.download_to_file demo_env "/tmp/copy" file_id 0 0 new_client).2)
  = [(0%nat, storage_download_to_file storage_node "/tmp/copy" 0 0 "M00/00/00/wKgAFF.txt")]
  ∧ storage_requests (calls (Facade.download_to_buffer demo_env file_id 0 0 new_client).2)
    = [(0%nat, storage_download_to_buffer storage_node None 0 0 "M00/00/00/wKgAFF.txt")].
Proof.
  apply (download_whole_file demo_env "/tmp/copy" file_id "group1" "M00/00/00/wKgAFF.txt"
           storage_node new_client).
  - reflexivity.
  - reflexivity.
Defined.

Lemma set_meta_data_status_witness :
  (Facade.set_meta_data refusing_env file_id None "O" new_client).1
  = Ok (<["Status" := VStr "Set meta data success."]>
          (<["Storage IP" := VStr "192.168.0.20"]> ∅)).
Proof.
  apply (set_meta_data_status refusing_env file_id "group1" "M00/00/00/wKgAFF.txt"
           None "O" storage_node 0%Z new_client).
  - reflexivity.
  - reflexivity.
  - reflexivity.
Defined.

(** X23: in the process that owns the pool, a [get_connection] that
    raises has changed nothing in the pool object, and has left every
    Connection object that existed before it as it was. *)
Theorem get_connection_failure w e :
  ConnectionPool.pid (self w) = getpid w →
  (Pool.get_connection w).1 = Raise e →
  self (Pool.get_connection w).2 = self w
  ∧ ∀ c, (c < next_ref w)%nat → heap (Pool.get_connection w).2 !! c = heap w !! c.
Proof.
  intros Hpid. unfold Pool.get_connection.
  erewrite bind_Ok by (by apply check_pid_same).
  erewrite bind_Ok by reflexivity.
  destruct (pop (ConnectionPool._conns_available (self w))) as [[rest conn]|].
  - unfold_M. simpl. done.
  - destruct (make_conn_heap w) as (Hheap & _).
    destruct (make_conn_cases w) as [(c & o & s & Hr & _)|(e' & Hr & Hself)];
      destruct (Pool.make_conn w) as [r w1] eqn:Hmk; simpl in *; subst r.
    + erewrite bind_Ok by exact Hmk. unfold add_inuse. unfold_M. simpl. done.
    + erewrite bind_Raise by exact Hmk. simpl. done.
Qed.

Lemma get_connection_failure_witness :
  self (Pool.get_connection pool_full).2 = self pool_full
  ∧ ∀ c, (c < next_ref pool_full)%nat →
         heap (Pool.get_connection pool_full).2 !! c = heap pool_full !! c.
Proof.
  apply (get_connection_failure pool_full (ConnectionError TooManyConnections)).
  - vm_compute. reflexivity.
  - vm_compute. reflexivity.
Defined.
